(** * Mode A bot: text normalisation, price extraction, rule evaluation,
      de-duplication and the poll loop

    A shallow embedding of [mode_a_bot.py], [mode_a_bot_v2.py] and
    [mode_a_bot_web.py].

    Python [str] values are lists of Unicode code points ([N]); [int]
    values are [Z]; the [seen] set is a [gset] of hex digests; exceptions
    are explicit in a small state-and-error monad; the network (fetchers,
    Telegram, the configuration file) is an input of each cycle. *)

From Stdlib Require Import ZArith NArith QArith Lia Ascii String List Bool.
From stdpp Require Import base option list gmap.

Local Open Scope N_scope.

(** ** Strings *)

Definition str := list N.

(** An ASCII literal as a Python string. *)
Definition lit (s : string) : str := map N_of_ascii (list_ascii_of_string s).

Definition SPACE : N := 32.
Definition NBSP : N := 160.      (* "\xa0" *)
Definition EURO : N := 8364.     (* "€" *)

(** [str.isspace] on one code point; the class [\s] of [re] on [str]
    patterns is the same set. *)
Definition is_space (c : N) : bool :=
  ((9 <=? c) && (c <=? 13)) || ((28 <=? c) && (c <=? 32))
  || (c =? 133) || (c =? 160) || (c =? 5760)
  || ((8192 <=? c) && (c <=? 8202))
  || (c =? 8232) || (c =? 8233) || (c =? 8239) || (c =? 8287) || (c =? 12288).

Definition is_ascii (c : N) : bool := c <? 128.

(** The part of the Unicode character database the program reads through
    [unicodedata.normalize] and through [\d] / [int]. *)
Class Unicode := {
  nfkd : str -> str;
  decimal : N -> option Z
}.

(** What is used of the database: compatibility decomposition leaves ASCII
    text alone; the ASCII digits have their values; a decimal digit has a
    value below ten and is neither white space nor the euro sign. *)
Class UnicodeSpec (U : Unicode) : Prop := {
  nfkd_ascii : forall s : str, forallb is_ascii s = true -> nfkd s = s;
  decimal_ascii : forall c, 48 <= c <= 57 -> decimal c = Some (Z.of_N c - 48)%Z;
  decimal_range : forall c d, decimal c = Some d -> (0 <= d <= 9)%Z;
  decimal_not_space : forall c, is_space c = true -> decimal c = None;
  decimal_not_euro : decimal EURO = None
}.

(** [encode("ascii","ignore").decode("ascii")] *)
Definition encode_ascii_ignore (s : str) : str := List.filter is_ascii s.

(** [str.lower] as it acts on the ASCII text it is applied to. *)
Definition lower_char (c : N) : N :=
  if (65 <=? c) && (c <=? 90) then c + 32 else c.
Definition lower (s : str) : str := map lower_char s.

Fixpoint lstrip (s : str) : str :=
  match s with
  | c :: s' => if is_space c then lstrip s' else s
  | [] => []
  end.

Definition rstrip (s : str) : str := rev (lstrip (rev s)).

(** [str.strip()] *)
Definition strip (s : str) : str := rstrip (lstrip s).

(** [re.sub(r"\s+", " ", s)]: [in_run] tells that the previous character
    belonged to the run of white space being replaced. *)
Fixpoint sub_ws (in_run : bool) (s : str) : str :=
  match s with
  | [] => []
  | c :: s' =>
      if is_space c
      then (if in_run then sub_ws true s' else SPACE :: sub_ws true s')
      else c :: sub_ws false s'
  end.

Definition normalize `{Unicode} (txt : str) : str :=
  match txt with
  | [] => []
  | _ => sub_ws false (lower (strip (encode_ascii_ignore (nfkd txt))))
  end.

(** [needle in hay] *)
Fixpoint starts_with (p s : str) : bool :=
  match p, s with
  | [], _ => true
  | a :: p', b :: s' => (a =? b) && starts_with p' s'
  | _ :: _, [] => false
  end.

Fixpoint contains (hay needle : str) : bool :=
  starts_with needle hay ||
  match hay with
  | [] => false
  | _ :: hay' => contains hay' needle
  end.

(** ** Price extraction *)

Definition is_digit `{Unicode} (c : N) : bool :=
  match decimal c with Some _ => true | None => false end.

(** [\s*€], greedy with backtracking. *)
Fixpoint ws_then_euro (s : str) : bool :=
  match s with
  | [] => false
  | c :: s' => (is_space c && ws_then_euro s') || (c =? EURO)
  end.

(** [[\d\s]{0,n}] followed by [\s*€]: one more character is tried first,
    and given back when the rest does not match. The result is what the
    bounded repetition consumed. *)
Fixpoint class_upto `{Unicode} (n : nat) (s : str) : option str :=
  let stop := if ws_then_euro s then Some [] else None in
  match n, s with
  | S n', c :: s' =>
      if is_digit c || is_space c
      then match class_upto n' s' with
           | Some g => Some (c :: g)
           | None => stop
           end
      else stop
  | _, _ => stop
  end.

(** The pattern [(\d[\d\s]{0,6})\s*€] anchored at the head of [s];
    the result is group 1. *)
Definition match_here `{Unicode} (s : str) : option str :=
  match s with
  | d :: s' =>
      if is_digit d
      then match class_upto 6 s' with
           | Some g => Some (d :: g)
           | None => None
           end
      else None
  | [] => None
  end.

(** [re.search]: the leftmost position where the pattern matches. *)
Fixpoint re_search `{Unicode} (s : str) : option str :=
  match match_here s with
  | Some g => Some g
  | None => match s with
            | [] => None
            | _ :: s' => re_search s'
            end
  end.

Definition replace_nbsp (s : str) : str :=
  map (fun c => if c =? NBSP then SPACE else c) s.

Definition remove_spaces (s : str) : str :=
  List.filter (fun c => negb (c =? SPACE)) s.

Definition digits_value `{Unicode} (s : str) : Z :=
  fold_left (fun acc c => (10 * acc + default 0 (decimal c))%Z) s 0%Z.

(** The white space [int] skips around a number: that of [str.isspace]
    but for the four separators U+001C to U+001F, which [int] takes for
    part of the number and refuses. *)
Definition is_int_space (c : N) : bool :=
  is_space c && negb ((28 <=? c) && (c <=? 31)).

Fixpoint int_lstrip (s : str) : str :=
  match s with
  | c :: s' => if is_int_space c then int_lstrip s' else s
  | [] => []
  end.

Definition int_rstrip (s : str) : str := rev (int_lstrip (rev s)).

Definition int_strip (s : str) : str := int_rstrip (int_lstrip s).

(** [int(s)] for a string of digits and white space: the white space
    around the number is skipped, anything but digits inside is a
    [ValueError] ([None]). *)
Definition py_int `{Unicode} (s : str) : option Z :=
  match int_strip s with
  | [] => None
  | t => if forallb is_digit t then Some (digits_value t) else None
  end.

(** [text] is [None] for the absent input. *)
Definition parse_price `{Unicode} (text : option str) : option Z :=
  match text with
  | None | Some [] => None
  | Some text =>
      match re_search (replace_nbsp text) with
      | Some g => py_int (remove_spaces g)
      | None => None
      end
  end.

(** A database that knows the ASCII digits, the Arabic-Indic digits and
    the decompositions of a few Latin-1 letters. *)
Definition small_decimal (c : N) : option Z :=
  if (48 <=? c) && (c <=? 57) then Some (Z.of_N c - 48)%Z
  else if (1632 <=? c) && (c <=? 1641) then Some (Z.of_N c - 1632)%Z
  else None.

Definition small_decompose (c : N) : str :=
  if c =? 160 then [32]
  else if c =? 224 then [97; 768]      (* a grave *)
  else if c =? 231 then [99; 807]      (* c cedilla *)
  else if c =? 232 then [101; 768]     (* e grave *)
  else if c =? 233 then [101; 769]     (* e acute *)
  else if c =? 201 then [69; 769]      (* E acute *)
  else [c].

Definition small_unicode : Unicode := {|
  nfkd := fun s => concat (map small_decompose s);
  decimal := small_decimal
|}.

(** ** Exceptions *)

Inductive exn :=
  | KeyError | TypeError | ValueError | OverflowError | OSError | RuntimeError.

Inductive result (A : Type) :=
  | Ok (a : A)
  | Raise (e : exn).
Arguments Ok {A} a.
Arguments Raise {A} e.

#[export] Instance result_ret : MRet result := fun _ a => Ok a.
#[export] Instance result_bind : MBind result := fun _ _ f m =>
  match m with
  | Ok a => f a
  | Raise e => Raise e
  end.

(** ** Configuration and listings *)

(** A JSON value where a number is expected. *)
Inductive jvalue :=
  | JNumber (q : Q)            (* an int, a bool or a finite float *)
  | JNaN
  | JInfinity (negative : bool)
  | JNonNumber.                (* a string, null, a list or an object *)

(** The keys of [mode_a_config.json] the program reads. An absent key is
    [None]; for a key read with [cfg.get(k, [])] or [cfg.get(k, False)]
    the default stands for the absent key. [leboncoin_base_urls] is
    [cfg["leboncoin"]["base_urls"]]. *)
Record config := {
  platforms : list str;
  leboncoin_base_urls : option (list str);
  vinted_base_urls : option (list str);
  models : list str;
  price_min : option jvalue;
  price_max : option jvalue;
  require_shipping : bool;
  shipping_positive : list str;
  shipping_negative : list str;
  terms_any : list (list str);
  terms_exclude : list str;
  tag_prefix : option str;
  search_interval_seconds : option Z
}.

(** A raw record as the fetchers build it. *)
Record item := {
  title : str;
  price : option Z;
  url : str;
  photo : option str;
  desc : str;
  platform : str
}.

(** [cfg[k]] *)
Definition index {A} (v : option A) : result A :=
  match v with
  | Some a => Ok a
  | None => Raise KeyError
  end.

(** [float(z)] for an int: exact up to 53 bits, rounded to nearest even
    above, [OverflowError] beyond the largest double. *)
Definition float_of_int (z : Z) : result Q :=
  let a := Z.abs z in
  let n := (Z.log2 a + 1)%Z in
  if (n <=? 53)%Z then Ok (inject_Z z)
  else
    let sh := (n - 53)%Z in
    let q := Z.shiftr a sh in
    let r := (a - Z.shiftl q sh)%Z in
    let half := Z.shiftl 1 (sh - 1) in
    let q' := if (half <? r)%Z || ((r =? half)%Z && Z.odd q) then (q + 1)%Z else q in
    let m := Z.shiftl q' sh in
    if (2 ^ 1024 <=? m)%Z then Raise OverflowError
    else Ok (inject_Z (Z.sgn z * m)).

(** [v <= p] and [p <= v] for a float [p] and a JSON value [v]. *)
Definition jvalue_le_float (v : jvalue) (p : Q) : result bool :=
  match v with
  | JNumber q => Ok (Qle_bool q p)
  | JNaN => Ok false
  | JInfinity negative => Ok negative
  | JNonNumber => Raise TypeError
  end.

Definition float_le_jvalue (p : Q) (v : jvalue) : result bool :=
  match v with
  | JNumber q => Ok (Qle_bool p q)
  | JNaN => Ok false
  | JInfinity negative => Ok (negb negative)
  | JNonNumber => Raise TypeError
  end.

(** [hashlib.sha1(url.encode()).hexdigest()]: the encoding and the digest
    are the library's. Nothing is assumed of it: two URLs may collide. *)
Class Hashlib := sha1_hexdigest : str -> str.

Definition fingerprint `{Hashlib} (u : str) : str := sha1_hexdigest u.

(** ** The world a cycle runs in *)

Inductive text_kind := Startup | Alert.

Inductive event :=
  | LogWarning
  | LogError (e : exn)
  | Sleep (seconds : Z)
  | Notify (it : item) (tag : option str) (with_photo delivered : bool)
  | SendText (k : text_kind) (delivered : bool).

(** What the outside answers during one cycle: the configuration file,
    the two marketplaces, and Telegram. *)
Record world := {
  load_cfg : result config;
  fetch_leboncoin : str -> result (list item);
  fetch_vinted : str -> result (list item);
  deliver : item -> bool;
  deliver_text : bool
}.

Record state := {
  seen : gset str;
  trace : list event
}.

Definition M (A : Type) : Type := state -> result A * state.

#[export] Instance M_ret : MRet M := fun _ a st => (Ok a, st).
#[export] Instance M_bind : MBind M := fun _ _ f m st =>
  match m st with
  | (Ok a, st') => f a st'
  | (Raise e, st') => (Raise e, st')
  end.

Definition lift {A} (r : result A) : M A := fun st => (r, st).

Definition emit (e : event) : M unit :=
  fun st => (Ok tt, {| seen := seen st; trace := trace st ++ [e] |}).

Definition get_seen : M (gset str) := fun st => (Ok (seen st), st).

(** [seen.add(fid)] *)
Definition seen_add (fid : str) : M unit :=
  fun st => (Ok tt, {| seen := {[fid]} ∪ seen st; trace := trace st |}).

(** [try: m except Exception as e: h e] *)
Definition try_except {A} (m : M A) (h : exn -> M A) : M A :=
  fun st =>
    match m st with
    | (Ok a, st') => (Ok a, st')
    | (Raise e, st') => h e st'
    end.

(** [time.sleep(n)] for an int [n]. The length is first converted to
    nanoseconds on 64 bits, an [OverflowError] when it does not fit;
    then a negative length is a [ValueError]. A length that passes both
    tests is handed to the operating system, which refuses the longest
    ones: from which length on, and with which exception, depends on the
    platform (its system call, and on some the time since it started).
    [sleep_floor], the 2^32 milliseconds of the narrowest known one, is
    taken by every platform. *)
Definition sleep_limit : Z := 9223372037.
Definition sleep_floor : Z := 4294967.

Class Platform := {
  sleep_max : Z;              (* the longest sleep the platform takes *)
  sleep_max_error : exn;      (* what it raises beyond *)
  sleep_max_floor : (sleep_floor <= sleep_max)%Z
}.

(** The exception [time.sleep(n)] raises, if any. *)
Definition sleep_error `{Platform} (n : Z) : option exn :=
  if (sleep_limit <=? Z.abs n)%Z then Some OverflowError
  else if (n <? 0)%Z then Some ValueError
  else if (sleep_max <? n)%Z then Some sleep_max_error
  else None.

Definition sleep `{Platform} (n : Z) : M unit :=
  match sleep_error n with
  | Some e => lift (Raise e)
  | None => emit (Sleep n)
  end.

(** [for x in xs: body x] *)
Fixpoint for_each {A} (xs : list A) (body : A -> M unit) : M unit :=
  match xs with
  | [] => mret tt
  | x :: xs' => body x ;; for_each xs' body
  end.

(** [for u in urls: try: results += fetch(u) except Exception: warn; sleep(2)] *)
Fixpoint fetch_each `{Platform} (fetch : str -> result (list item)) (urls : list str)
    (results : list item) : M (list item) :=
  match urls with
  | [] => mret results
  | u :: urls' =>
      results' ← try_except
                   (items ← lift (fetch u); mret (results ++ items))
                   (fun _ => emit LogWarning ;; sleep 2 ;; mret results);
      fetch_each fetch urls' results'
  end.

Definition truthy (o : option str) : bool :=
  match o with
  | Some (_ :: _) => true
  | _ => false
  end.

(** The environment variables read at import time. *)
Record environ := {
  TELEGRAM_BOT_TOKEN : option str;
  TELEGRAM_CHAT_ID : option str
}.

(** [if not TOKEN or not CHAT_ID: raise RuntimeError(...)] *)
Definition check_credentials (env : environ) : result unit :=
  if negb (truthy (TELEGRAM_BOT_TOKEN env)) || negb (truthy (TELEGRAM_CHAT_ID env))
  then Raise RuntimeError
  else Ok tt.

Definition initial_state : state := {| seen := ∅; trace := [] |}.

(** The sleep of the error path of the three loops. *)
Definition error_cooldown : Z := 120.

(** [int(cfg.get("search_interval_seconds", 180))] *)
Definition search_interval (cfg : config) : Z :=
  default 180%Z (search_interval_seconds cfg).

(** ** [mode_a_bot.py] *)

Module V1.
Section Bot.
Context {U : Unicode} {H : Hashlib} {PF : Platform}.

Definition in_model_range (title : str) (models : list str) : bool :=
  let t := normalize title in
  match models with
  | [] => true
  | _ => existsb (fun m => contains t (normalize m)) models
  end.

(** The chained comparison reads [cfg["price_max"]] only when the first
    comparison holds; every exception of the [try] block gives [True]. *)
Definition price_ok (price : option Z) (cfg : config) : bool :=
  match price with
  | None => true
  | Some z =>
      let body : result bool :=
        p ← float_of_int z;
        lo ← index (price_min cfg);
        b ← jvalue_le_float lo p;
        if b : bool then hi ← index (price_max cfg); float_le_jvalue p hi
        else mret false in
      match body with
      | Ok b => b
      | Raise _ => true
      end
  end.

Definition shipping_passes (text : str) (cfg : config) : bool :=
  if negb (require_shipping cfg) then true
  else
    let t := normalize text in
    let pos := match shipping_positive cfg with
               | [] => true
               | ws => existsb (fun w => contains t (normalize w)) ws
               end in
    let neg := match shipping_negative cfg with
               | [] => false
               | ws => existsb (fun w => contains t (normalize w)) ws
               end in
    pos && negb neg.

Definition terms_pass (title desc : str) (cfg : config) : bool :=
  let t := normalize (title ++ [SPACE] ++ desc) in
  let inc_groups := terms_any cfg in
  let exc_terms := terms_exclude cfg in
  let ok_any := match inc_groups with
                | [] => true
                | _ => existsb (fun group =>
                         existsb (fun term => contains t (normalize term)) group)
                         inc_groups
                end in
  let ok_exc := match exc_terms with
                | [] => true
                | _ => negb (existsb (fun term => contains t (normalize term)) exc_terms)
                end in
  ok_any && ok_exc.

(** The message text is not modelled; the event records the listing, the
    tag and whether the photo call was used. A failed send is logged. *)
Definition send_telegram (w : world) (it : item) (tag : option str) : M unit :=
  let ok := deliver w it in
  emit (Notify it tag (truthy (photo it)) ok) ;;
  if ok then mret tt else emit LogWarning.

(** The body of [for it in results]. *)
Definition process (w : world) (cfg : config) (it : item) : M unit :=
  let fid := fingerprint (url it) in
  sn ← get_seen;
  if bool_decide (fid ∈ sn) then mret tt
  else if negb (in_model_range (title it) (models cfg)) then mret tt
  else if negb (price_ok (price it) cfg) then mret tt
  else if negb (shipping_passes (title it ++ [SPACE] ++ desc it) cfg) then mret tt
  else if negb (terms_pass (title it) (desc it) cfg) then mret tt
  else send_telegram w it (tag_prefix cfg) ;; seen_add fid.

(** The four tests of the loop body, in its order. *)
Definition accepts (cfg : config) (it : item) : bool :=
  in_model_range (title it) (models cfg)
  && price_ok (price it) cfg
  && shipping_passes (title it ++ [SPACE] ++ desc it) cfg
  && terms_pass (title it) (desc it) cfg.

Definition run_once (w : world) (cfg : config) : M unit :=
  results ←
    (if bool_decide (lit "leboncoin" ∈ platforms cfg)
     then urls ← lift (index (leboncoin_base_urls cfg));
          fetch_each (fetch_leboncoin w) urls []
     else mret []);
  results ←
    (if bool_decide (lit "vinted" ∈ platforms cfg)
     then urls ← lift (index (vinted_base_urls cfg));
          fetch_each (fetch_vinted w) urls results
     else mret results);
  for_each results (process w cfg).

(** [bot.send_message(CHAT_ID, text=...)]: raises when the send fails. *)
Definition bot_send_message (w : world) (k : text_kind) : M unit :=
  emit (SendText k (deliver_text w)) ;;
  if deliver_text w then mret tt else lift (Raise OSError).

(** The [try] block of the loop. *)
Definition cycle_body (w : world) : M unit :=
  cfg ← lift (load_cfg w);
  run_once w cfg ;;
  sleep (search_interval cfg).

(** The [except Exception as e] block. *)
Definition handler (w : world) (e : exn) : M unit :=
  emit (LogError e) ;;
  try_except (bot_send_message w Alert) (fun _ => mret tt) ;;
  sleep error_cooldown.

(** One turn of [while True]. *)
Definition cycle (w : world) : M unit :=
  try_except (cycle_body w) (handler w).

(** [while True] over the cycles the world offers. *)
Fixpoint loop (cycles : list world) : M unit :=
  match cycles with
  | [] => mret tt
  | w :: cycles' => cycle w ;; loop cycles'
  end.

(** [main]: [boot] answers the calls made before the loop. [seen] starts
    empty. *)
Definition main (boot : world) (cycles : list world) : M unit :=
  _ ← lift (load_cfg boot);
  bot_send_message boot Startup ;;
  loop cycles.

(** The module body, then [main()]. *)
Definition program (env : environ) (boot : world) (cycles : list world)
    : result unit * state :=
  match check_credentials env with
  | Raise e => (Raise e, initial_state)
  | Ok _ => main boot cycles initial_state
  end.

End Bot.
End V1.

(** ** [mode_a_bot_v2.py] *)

Module V2.
Section Bot.
Context {U : Unicode} {H : Hashlib} {PF : Platform}.

Definition in_model_range (title : str) (models : list str) : bool :=
  match models with
  | [] => true
  | _ => let t := normalize title in
         existsb (fun m => contains t (normalize m)) models
  end.

(** [cfg.get("price_min", 0) <= p <= cfg.get("price_max", 10**9)] *)
Definition price_ok (price : option Z) (cfg : config) : bool :=
  match price with
  | None => true
  | Some z =>
      let body : result bool :=
        p ← float_of_int z;
        b ← jvalue_le_float (default (JNumber 0) (price_min cfg)) p;
        if b : bool
        then float_le_jvalue p (default (JNumber (inject_Z (10 ^ 9))) (price_max cfg))
        else mret false in
      match body with
      | Ok b => b
      | Raise _ => true
      end
  end.

Definition shipping_passes (text : str) (cfg : config) : bool :=
  if negb (require_shipping cfg) then true
  else
    let t := normalize text in
    let pos_terms := map normalize (shipping_positive cfg) in
    let neg_terms := map normalize (shipping_negative cfg) in
    let has_pos := match pos_terms with
                   | [] => true
                   | _ => existsb (fun w => contains t w) pos_terms
                   end in
    let has_neg := match neg_terms with
                   | [] => false
                   | _ => existsb (fun w => contains t w) neg_terms
                   end in
    has_pos && negb has_neg.

Definition terms_pass (title desc : str) (cfg : config) : bool :=
  let t := normalize (title ++ [SPACE] ++ desc) in
  let inc_groups := terms_any cfg in
  let exc_terms := map normalize (terms_exclude cfg) in
  let ok_any := match inc_groups with
                | [] => true
                | _ => existsb (fun group =>
                         existsb (fun term => contains t (normalize term)) group)
                         inc_groups
                end in
  let ok_exc := match exc_terms with
                | [] => true
                | _ => negb (existsb (fun x => contains t x) exc_terms)
                end in
  ok_any && ok_exc.

(** [tg_send_message]: a failed request is logged, nothing is raised. *)
Definition tg_send_message (w : world) (k : text_kind) : M unit :=
  emit (SendText k (deliver_text w)) ;;
  if deliver_text w then mret tt else emit LogWarning.

(** [tg_send_photo] or [tg_send_message] with the listing's text. *)
Definition send_telegram (w : world) (it : item) (tag : option str) : M unit :=
  let ok := deliver w it in
  emit (Notify it tag (truthy (photo it)) ok) ;;
  if ok then mret tt else emit LogWarning.

Definition process (w : world) (cfg : config) (it : item) : M unit :=
  let fid := fingerprint (url it) in
  sn ← get_seen;
  if bool_decide (fid ∈ sn) then mret tt
  else if negb (in_model_range (title it) (models cfg)) then mret tt
  else if negb (price_ok (price it) cfg) then mret tt
  else if negb (shipping_passes (title it ++ [SPACE] ++ desc it) cfg) then mret tt
  else if negb (terms_pass (title it) (desc it) cfg) then mret tt
  else send_telegram w it (tag_prefix cfg) ;; seen_add fid.

(** The four tests of the loop body, in its order. *)
Definition accepts (cfg : config) (it : item) : bool :=
  in_model_range (title it) (models cfg)
  && price_ok (price it) cfg
  && shipping_passes (title it ++ [SPACE] ++ desc it) cfg
  && terms_pass (title it) (desc it) cfg.

(** The two fetch blocks, shared with the web variant's loop body. *)
Definition fetch_sources (w : world) (cfg : config) : M (list item) :=
  results ←
    match leboncoin_base_urls cfg with
    | Some urls => fetch_each (fetch_leboncoin w) urls []
    | None => mret []
    end;
  match vinted_base_urls cfg with
  | Some urls => fetch_each (fetch_vinted w) urls results
  | None => mret results
  end.

Definition run_once (w : world) (cfg : config) : M unit :=
  results ← fetch_sources w cfg;
  for_each results (process w cfg).

Definition cycle_body (w : world) : M unit :=
  cfg ← lift (load_cfg w);
  run_once w cfg ;;
  sleep (search_interval cfg).

Definition handler (w : world) (e : exn) : M unit :=
  emit (LogError e) ;;
  try_except (tg_send_message w Alert) (fun _ => mret tt) ;;
  sleep error_cooldown.

Definition cycle (w : world) : M unit :=
  try_except (cycle_body w) (handler w).

Fixpoint loop (cycles : list world) : M unit :=
  match cycles with
  | [] => mret tt
  | w :: cycles' => cycle w ;; loop cycles'
  end.

Definition main (boot : world) (cycles : list world) : M unit :=
  tg_send_message boot Startup ;;
  loop cycles.

Definition program (env : environ) (boot : world) (cycles : list world)
    : result unit * state :=
  match check_credentials env with
  | Raise e => (Raise e, initial_state)
  | Ok _ => main boot cycles initial_state
  end.

End Bot.
End V2.

(** ** [mode_a_bot_web.py]

    Its helpers have the text of [mode_a_bot_v2.py]; the loop body inlines
    [run_once] and asks [terms_pass] before [shipping_passes]. The health
    server thread shares no state with the loop and is not modelled. *)

Module Web.
Section Bot.
Context {U : Unicode} {H : Hashlib} {PF : Platform}.

Definition in_model_range := V2.in_model_range.
Definition price_ok := V2.price_ok.
Definition shipping_passes := V2.shipping_passes.
Definition terms_pass := V2.terms_pass.

Definition process (w : world) (cfg : config) (it : item) : M unit :=
  let fid := fingerprint (url it) in
  sn ← get_seen;
  if bool_decide (fid ∈ sn) then mret tt
  else if negb (in_model_range (title it) (models cfg)) then mret tt
  else if negb (price_ok (price it) cfg) then mret tt
  else if negb (terms_pass (title it) (desc it) cfg) then mret tt
  else if negb (shipping_passes (title it ++ [SPACE] ++ desc it) cfg) then mret tt
  else V2.send_telegram w it (tag_prefix cfg) ;; seen_add fid.

(** The four tests of the loop body, in its order. *)
Definition accepts (cfg : config) (it : item) : bool :=
  in_model_range (title it) (models cfg)
  && price_ok (price it) cfg
  && terms_pass (title it) (desc it) cfg
  && shipping_passes (title it ++ [SPACE] ++ desc it) cfg.

Definition cycle_body (w : world) : M unit :=
  cfg ← lift (load_cfg w);
  results ← V2.fetch_sources w cfg;
  for_each results (process w cfg) ;;
  sleep (search_interval cfg).

Definition cycle (w : world) : M unit :=
  try_except (cycle_body w) (V2.handler w).

Fixpoint bot_loop_cycles (cycles : list world) : M unit :=
  match cycles with
  | [] => mret tt
  | w :: cycles' => cycle w ;; bot_loop_cycles cycles'
  end.

Definition bot_loop (boot : world) (cycles : list world) : M unit :=
  V2.tg_send_message boot Startup ;;
  bot_loop_cycles cycles.

Definition program (env : environ) (boot : world) (cycles : list world)
    : result unit * state :=
  match check_credentials env with
  | Raise e => (Raise e, initial_state)
  | Ok _ => bot_loop boot cycles initial_state
  end.

End Bot.
End Web.

(** ** Notions used to state the properties *)

(** The first and the last character are not white space. *)
Definition starts_clean (s : str) : Prop :=
  match s with
  | c :: _ => is_space c = false
  | [] => True
  end.

Definition ends_clean (s : str) : Prop :=
  match last s with
  | Some c => is_space c = false
  | None => True
  end.

(** Every white-space character is a single space that follows a
    character which is not white space ([prev] stands for the character
    before the string). *)
Fixpoint single_spaced (prev : bool) (s : str) : bool :=
  match s with
  | [] => true
  | c :: s' =>
      if is_space c then negb prev && (c =? SPACE) && single_spaced true s'
      else single_spaced false s'
  end.

(** What [normalize] returns: ASCII, lower case, trimmed, single-spaced. *)
Record canonical (s : str) : Prop := {
  can_ascii : forallb is_ascii s = true;
  can_lower : lower s = s;
  can_start : starts_clean s;
  can_end : ends_clean s;
  can_spaced : single_spaced false s = true
}.

(** The class [[\d\s]]. *)
Definition is_class `{Unicode} (c : N) : bool := is_digit c || is_space c.

(** The character before the white space that ends [pre], if any, is not
    a digit: a number that starts after [pre] is not the tail of a longer
    one. *)
Definition left_boundary `{Unicode} (pre : str) : Prop :=
  match last (rstrip pre) with
  | Some c => is_digit c = false
  | None => True
  end.

(** The pattern can match at the head of [s]: a digit, at most six
    digits or white-space characters, optional white space, the euro
    sign. *)
Definition starts_price `{Unicode} (s : str) : Prop :=
  exists d body w r,
    s = d :: body ++ w ++ EURO :: r /\ is_digit d = true /\
    (length body <= 6)%nat /\ forallb is_class body = true /\
    forallb is_space w = true.

(** What follows [pre] holds the first priced number of the text: the
    pattern matches at no position of [pre]. *)
Definition first_after `{Unicode} (pre rest : str) : Prop :=
  forall a b, pre = a ++ b -> b <> [] -> ~ starts_price (b ++ rest).

(** A digit, a space or a non-breaking space: what a grouped number is
    written with. *)
Definition is_grouped `{Unicode} (c : N) : bool :=
  is_digit c || (c =? SPACE) || (c =? NBSP).

(** No key of the configuration constrains a listing. *)
Definition unconstrained (cfg : config) : Prop :=
  models cfg = [] /\ terms_any cfg = [] /\ terms_exclude cfg = [] /\
  require_shipping cfg = false /\ price_min cfg = None /\ price_max cfg = None.

(** [needle] occurs in [hay]. *)
Definition substring (needle hay : str) : Prop :=
  exists a b, hay = a ++ needle ++ b.

(** The fingerprints, in order, of the listings the sink was called for. *)
Fixpoint notified_fids `{Hashlib} (tr : list event) : list str :=
  match tr with
  | [] => []
  | Notify it _ _ _ :: tr' => fingerprint (url it) :: notified_fids tr'
  | _ :: tr' => notified_fids tr'
  end.

(** How many times the sink was called for a listing with URL [u]. *)
Fixpoint times_notified (u : str) (tr : list event) : nat :=
  match tr with
  | [] => 0%nat
  | Notify it _ _ _ :: tr' =>
      ((if bool_decide (url it = u) then 1 else 0) + times_notified u tr')%nat
  | _ :: tr' => times_notified u tr'
  end.

(** No fingerprint was notified twice, and every notified one is seen. *)
Definition dedup_inv `{Hashlib} (st : state) : Prop :=
  NoDup (notified_fids (trace st)) /\
  forall fid, fid ∈ notified_fids (trace st) -> fid ∈ seen st.

(** [m] keeps the property [I] of the state, however it ends. *)
Definition preserves {A} (I : state -> Prop) (m : M A) : Prop :=
  forall st, I st -> I (snd (m st)).

(** What a notification does to the state: one call of the sink, a
    warning when the delivery failed, and the fingerprint marked in
    either case. *)
Definition after_notify `{Hashlib} (w : world) (cfg : config) (it : item) (st : state) : state :=
  {| seen := {[fingerprint (url it)]} ∪ seen st;
     trace := trace st
              ++ Notify it (tag_prefix cfg) (truthy (photo it)) (deliver w it)
                 :: (if deliver w it then [] else [LogWarning]) |}.

(** What the claims say of a loop body [process] with decision
    [accepts]: a seen or rejected listing changes nothing; the set
    changes only by notifying an accepted, unseen listing; a rejected
    listing is notified later when a configuration accepts it. *)
Definition loop_body_frame `{Hashlib}
    (process : world -> config -> item -> M unit)
    (accepts : config -> item -> bool) : Prop :=
  forall w cfg it st,
    (fingerprint (url it) ∈ seen st \/ accepts cfg it = false ->
     process w cfg it st = (Ok tt, st)) /\
    (seen (snd (process w cfg it st)) <> seen st ->
     (fingerprint (url it) ∉ seen st) /\ accepts cfg it = true /\
     process w cfg it st = (Ok tt, after_notify w cfg it st)) /\
    (forall w' cfg',
       fingerprint (url it) ∉ seen st ->
       accepts cfg it = false -> accepts cfg' it = true ->
       process w' cfg' it (snd (process w cfg it st))
       = (Ok tt, after_notify w' cfg' it st)).

(** At the end of a run: the sink was called at most once for each URL,
    and every listing it was called for is marked seen, delivered or
    not. *)
Definition at_most_once `{Hashlib} (final : state) : Prop :=
  (forall u, (times_notified u (trace final) <= 1)%nat) /\
  (forall it tag ph ok,
     In (Notify it tag ph ok) (trace final) ->
     fingerprint (url it) ∈ seen final).

(** What the error path of [mode_a_bot.py] adds to the trace, and what
    the error path of the two other variants adds: their send logs its
    own failure. *)
Definition v1_alert_events (w : world) (e : exn) : list event :=
  [LogError e; SendText Alert (deliver_text w); Sleep error_cooldown].

Definition v2_alert_events (w : world) (e : exn) : list event :=
  [LogError e; SendText Alert (deliver_text w)]
  ++ (if deliver_text w then [] else [LogWarning])
  ++ [Sleep error_cooldown].


(** ** Sample data *)

Definition sample_cfg : config := {|
  platforms := [lit "leboncoin"; lit "vinted"];
  leboncoin_base_urls := Some [lit "https://www.leboncoin.fr/recherche?text=iphone"];
  vinted_base_urls := Some [lit "https://www.vinted.fr/catalog?search_text=iphone"];
  models := [lit "iPhone 12"];
  price_min := Some (JNumber (inject_Z 100));
  price_max := Some (JNumber (inject_Z 300));
  require_shipping := false;
  shipping_positive := [];
  shipping_negative := [];
  terms_any := [];
  terms_exclude := [lit "cass" ++ [233%N]];      (* "cassé" *)
  tag_prefix := None;
  search_interval_seconds := None
|}.

(** A configuration without any key. *)
Definition empty_cfg : config := {|
  platforms := [];
  leboncoin_base_urls := None;
  vinted_base_urls := None;
  models := [];
  price_min := None;
  price_max := None;
  require_shipping := false;
  shipping_positive := [];
  shipping_negative := [];
  terms_any := [];
  terms_exclude := [];
  tag_prefix := None;
  search_interval_seconds := None
|}.

(** Only an upper price bound is configured. *)
Definition max_only_cfg : config := {|
  platforms := [];
  leboncoin_base_urls := None;
  vinted_base_urls := None;
  models := [];
  price_min := None;
  price_max := Some (JNumber (inject_Z 300));
  require_shipping := false;
  shipping_positive := [];
  shipping_negative := [];
  terms_any := [];
  terms_exclude := [];
  tag_prefix := None;
  search_interval_seconds := None
|}.

Definition listing (t : str) (p : option Z) (u : string) (d : str) : item := {|
  title := t;
  price := p;
  url := lit u;
  photo := None;
  desc := d;
  platform := lit "leboncoin"
|}.

Definition good_item : item :=
  listing (lit "iPhone 12 64GB") (Some 250%Z) "https://x/1"
    (lit "tr" ++ [232%N] ++ lit "s bon " ++ [233%N] ++ lit "tat").

Definition broken_item : item :=
  listing (lit "iPhone 12 " ++ [233%N] ++ lit "cran cass" ++ [233%N])
    (Some 90%Z) "https://x/2" [].

Definition dear_item : item :=
  listing (lit "iPhone 12") (@parse_price small_unicode (Some (lit "500 " ++ [EURO])))
    "https://x/3" [].

(** A stand-in digest for the examples. *)
Definition sample_hashlib : Hashlib := fun u => rev u.

(** A world where everything answers: the sample configuration, one
    listing per marketplace page, Telegram up. *)
Definition fair_world : world := {|
  load_cfg := Ok sample_cfg;
  fetch_leboncoin := fun _ => Ok [good_item; broken_item];
  fetch_vinted := fun _ => Ok [good_item];
  deliver := fun _ => true;
  deliver_text := true
|}.

(** The configuration file cannot be read and Telegram is down. *)
Definition dark_world : world := {|
  load_cfg := Raise OSError;
  fetch_leboncoin := fun _ => Raise OSError;
  fetch_vinted := fun _ => Raise OSError;
  deliver := fun _ => false;
  deliver_text := false
|}.

(** The configuration is read, the first marketplace fails. *)
Definition flaky_world : world := {|
  load_cfg := Ok sample_cfg;
  fetch_leboncoin := fun _ => Raise OSError;
  fetch_vinted := fun _ => Ok [good_item];
  deliver := fun _ => false;
  deliver_text := true
|}.

(** A platform that takes sleeps of up to nine billion seconds. *)
Definition sample_platform : Platform := {|
  sleep_max := 9000000000;
  sleep_max_error := OSError;
  sleep_max_floor := ltac:(done)
|}.

Definition good_env : environ := {|
  TELEGRAM_BOT_TOKEN := Some (lit "123:abc");
  TELEGRAM_CHAT_ID := Some (lit "42")
|}.

(** ** Notions for the further properties *)

(** The ASCII digits, and the number a string of them writes in base ten. *)
Definition is_ascii_digit (c : N) : bool := (48 <=? c) && (c <=? 57).

Definition decimal_number (s : str) : Z :=
  fold_left (fun acc c => (10 * acc + (Z.of_N c - 48))%Z) s 0%Z.

(** The configuration with every term in normal form. *)
Definition normalize_cfg `{Unicode} (cfg : config) : config := {|
  platforms := platforms cfg;
  leboncoin_base_urls := leboncoin_base_urls cfg;
  vinted_base_urls := vinted_base_urls cfg;
  models := map normalize (models cfg);
  price_min := price_min cfg;
  price_max := price_max cfg;
  require_shipping := require_shipping cfg;
  shipping_positive := map normalize (shipping_positive cfg);
  shipping_negative := map normalize (shipping_negative cfg);
  terms_any := map (map normalize) (terms_any cfg);
  terms_exclude := map normalize (terms_exclude cfg);
  tag_prefix := tag_prefix cfg;
  search_interval_seconds := search_interval_seconds cfg
|}.

(** The configuration with [terms_any] replaced. *)
Definition set_terms_any (groups : list (list str)) (cfg : config) : config := {|
  platforms := platforms cfg;
  leboncoin_base_urls := leboncoin_base_urls cfg;
  vinted_base_urls := vinted_base_urls cfg;
  models := models cfg;
  price_min := price_min cfg;
  price_max := price_max cfg;
  require_shipping := require_shipping cfg;
  shipping_positive := shipping_positive cfg;
  shipping_negative := shipping_negative cfg;
  terms_any := groups;
  terms_exclude := terms_exclude cfg;
  tag_prefix := tag_prefix cfg;
  search_interval_seconds := search_interval_seconds cfg
|}.

(** Some term of [l] occurs, normalised, in the normalised text [t]. *)
Definition some_term_in `{Unicode} (l : list str) (t : str) : Prop :=
  exists w, In w l /\ substring (normalize w) t.

(** A shipping rule: a positive term is required, a negative one
    forbidden. *)
Definition shipping_cfg : config := {|
  platforms := [];
  leboncoin_base_urls := None;
  vinted_base_urls := None;
  models := [];
  price_min := None;
  price_max := None;
  require_shipping := true;
  shipping_positive := [lit "Envoi possible"];
  shipping_negative := [lit "pas d'envoi"];
  terms_any := [[lit "iPhone"; lit "Samsung"]; [lit "64GB"]];
  terms_exclude := [[20013; 21476]%N];
  tag_prefix := None;
  search_interval_seconds := Some (-5)%Z
|}.

(** [price_min] was written as a string. *)
Definition text_min_cfg : config := {|
  platforms := [];
  leboncoin_base_urls := None;
  vinted_base_urls := None;
  models := [];
  price_min := Some JNonNumber;
  price_max := Some (JNumber (inject_Z 300));
  require_shipping := false;
  shipping_positive := [];
  shipping_negative := [];
  terms_any := [];
  terms_exclude := [];
  tag_prefix := None;
  search_interval_seconds := None
|}.

(** The records the pages that answer give, in the order of the URLs,
    and what the failing pages leave in the trace. *)
Fixpoint fetched (fetch : str -> result (list item)) (urls : list str) : list item :=
  match urls with
  | [] => []
  | u :: urls' =>
      match fetch u with
      | Ok items => items ++ fetched fetch urls'
      | Raise _ => fetched fetch urls'
      end
  end.

Fixpoint fetch_warnings (fetch : str -> result (list item)) (urls : list str)
    : list event :=
  match urls with
  | [] => []
  | u :: urls' =>
      match fetch u with
      | Ok _ => fetch_warnings fetch urls'
      | Raise _ => LogWarning :: Sleep 2 :: fetch_warnings fetch urls'
      end
  end.

(** The configuration with [platforms] replaced. *)
Definition set_platforms (ps : list str) (cfg : config) : config := {|
  platforms := ps;
  leboncoin_base_urls := leboncoin_base_urls cfg;
  vinted_base_urls := vinted_base_urls cfg;
  models := models cfg;
  price_min := price_min cfg;
  price_max := price_max cfg;
  require_shipping := require_shipping cfg;
  shipping_positive := shipping_positive cfg;
  shipping_negative := shipping_negative cfg;
  terms_any := terms_any cfg;
  terms_exclude := terms_exclude cfg;
  tag_prefix := tag_prefix cfg;
  search_interval_seconds := search_interval_seconds cfg
|}.


(** The set holds exactly the fingerprints the sink was called for. *)
Definition seen_exact `{Hashlib} (st : state) : Prop :=
  forall fid, fid ∈ seen st <-> fid ∈ notified_fids (trace st).

(** A world that hands out [shipping_cfg]. *)
Definition shipping_world : world := {|
  load_cfg := Ok shipping_cfg;
  fetch_leboncoin := fun _ => Ok [good_item];
  fetch_vinted := fun _ => Ok [];
  deliver := fun _ => true;
  deliver_text := true
|}.

(** [leboncoin] is listed but has no URLs. *)
Definition listed_only_cfg : config := set_platforms [lit "leboncoin"] empty_cfg.

(** ** The fetchers

    What the HTML parser answers for one anchor selected on a result
    page; the page itself and its parsing are the libraries'. *)
Record anchor := {
  a_href : option str;          (* [a.get("href")] *)
  a_text : str;                 (* [a.get_text(" ", strip=True)] *)
  a_price_text : option str;    (* [price_el.get_text() if price_el else None] *)
  a_img : option (option str * option str);
                                (* [a.find("img")]: its [src] and [data-src] *)
  a_next_p : option str         (* [a.find_next("p")]: its text *)
}.

(** [x or y] on optional strings. *)
Definition py_or (x y : option str) : option str :=
  if truthy x then x else y.

Definition LEBONCOIN_ROOT : str := lit "https://www.leboncoin.fr".
Definition VINTED_ROOT : str := lit "https://www.vinted.fr".

Module Fetch.
Section Fetch.
Context {U : Unicode}.

(** The body of [for a in soup.select(...)], which the two fetchers
    share but for the site, the platform name and the description;
    [None] is [continue]. *)
Definition record_of (root name : str) (description : str) (a : anchor)
    : option item :=
  let href := default [] (py_or (a_href a) (Some [])) in
  match href with
  | [] => None
  | _ =>
      let link := if starts_with (lit "/") href then root ++ href else href in
      let price := parse_price (a_price_text a) in
      let img := match a_img a with
                 | Some (src, data_src) => py_or src data_src
                 | None => None
                 end in
      Some {| title := a_text a; price := price; url := link; photo := img;
              desc := description; platform := name |}
  end.

(** [page] is what [requests.get], [raise_for_status] and the parser
    give: the selected anchors, or the exception raised. *)
Definition fetch_leboncoin (page : result (list anchor)) : result (list item) :=
  match page with
  | Ok anchors =>
      Ok (omap (fun a => record_of LEBONCOIN_ROOT (lit "leboncoin")
                           (default [] (a_next_p a)) a) anchors)
  | Raise e => Raise e
  end.

Definition fetch_vinted (page : result (list anchor)) : result (list item) :=
  match page with
  | Ok anchors => Ok (omap (record_of VINTED_ROOT (lit "vinted") []) anchors)
  | Raise e => Raise e
  end.

End Fetch.
End Fetch.

(** What every record of a page has: a URL that is not empty and is
    either an absolute [href] kept as it is or the site followed by a
    relative one, the platform's name, and a price that is absent or
    within seven digits. *)
Definition well_formed (root name : str) (it : item) : Prop :=
  url it <> [] /\
  (starts_with (root ++ lit "/") (url it) = true \/
   starts_with (lit "/") (url it) = false) /\
  platform it = name /\
  match price it with
  | Some z => (0 <= z <= 9999999)%Z
  | None => True
  end.

(** The anchors the loop does not skip, and the record it builds from
    one of them: the link is the [href] as it is or, for a relative
    one, the site followed by it. *)
Definition has_href (a : anchor) : bool := truthy (a_href a).

Definition built_from `{Unicode} (root name : str) (a : anchor) (it : item)
    : Prop :=
  exists h, a_href a = Some h /\ h <> [] /\
    url it = (if starts_with (lit "/") h then root ++ h else h) /\
    title it = a_text a /\
    price it = parse_price (a_price_text a) /\
    platform it = name /\
    truthy (photo it) = match a_img a with
                        | Some (src, data_src) => truthy src || truthy data_src
                        | None => false
                        end.


(** An anchor as a result page has them: a relative link, and a picture
    whose address is in [data-src]. *)
Definition sample_anchor : anchor := {|
  a_href := Some (lit "/vi/2412.htm");
  a_text := lit "iPhone 12 64GB";
  a_price_text := Some (lit "250 " ++ [EURO]);
  a_img := Some (Some [], Some (lit "https://img/1.jpg"));
  a_next_p := None
|}.

(** * Properties *)

(** ** White space, case and trimming *)

Lemma lower_char_space c : is_space (lower_char c) = is_space c.
Proof.
  unfold lower_char.
  destruct ((65 <=? c) && (c <=? 90)) eqn:E; [|done].
  apply andb_true_iff in E as [E1%N.leb_le E2%N.leb_le].
  unfold is_space.
  repeat match goal with
         | |- context [?a <=? ?b] => destruct (N.leb_spec a b); try lia
         | |- context [?a =? ?b] => destruct (N.eqb_spec a b); try lia
         end; reflexivity.
Qed.

Lemma lower_char_ascii c : is_ascii c = true -> is_ascii (lower_char c) = true.
Proof.
  unfold is_ascii, lower_char. intros Hc%N.ltb_lt.
  destruct ((65 <=? c) && (c <=? 90)) eqn:E; apply N.ltb_lt; [|done].
  apply andb_true_iff in E as [_ E2%N.leb_le]. lia.
Qed.

Lemma lower_char_idem c : lower_char (lower_char c) = lower_char c.
Proof.
  unfold lower_char.
  destruct ((65 <=? c) && (c <=? 90)) eqn:E; [|by rewrite E].
  apply andb_true_iff in E as [E1%N.leb_le E2%N.leb_le].
  destruct (N.leb_spec 65 (c + 32)), (N.leb_spec (c + 32) 90); simpl; lia.
Qed.

Lemma lstrip_starts_clean s : starts_clean (lstrip s).
Proof.
  induction s as [|c s IH]; simpl; [done|].
  destruct (is_space c) eqn:E; [done|]. simpl. exact E.
Qed.

Lemma lstrip_clean s : starts_clean s -> lstrip s = s.
Proof. destruct s as [|c s]; simpl; [done|]. by intros ->. Qed.

Lemma rstrip_snoc s c :
  rstrip (s ++ [c]) = if is_space c then rstrip s else s ++ [c].
Proof.
  unfold rstrip. rewrite rev_app_distr. simpl.
  destruct (is_space c); [done|].
  simpl. by rewrite rev_involutive.
Qed.

Lemma rstrip_ends_clean s : ends_clean (rstrip s).
Proof.
  induction s as [|c s IH] using rev_ind; [done|].
  rewrite rstrip_snoc. destruct (is_space c) eqn:E; [done|].
  unfold ends_clean. by rewrite last_snoc.
Qed.

Lemma rstrip_clean s : ends_clean s -> rstrip s = s.
Proof.
  destruct s as [|c s _] using rev_ind; [done|].
  unfold ends_clean. rewrite last_snoc, rstrip_snoc. by intros ->.
Qed.

Lemma rstrip_starts_clean s : starts_clean s -> starts_clean (rstrip s).
Proof.
  induction s as [|c s IH] using rev_ind; [done|].
  rewrite rstrip_snoc. destruct (is_space c); [|done].
  intros Hs. apply IH. destruct s; [done|]. exact Hs.
Qed.

Lemma strip_starts_clean s : starts_clean (strip s).
Proof. apply rstrip_starts_clean, lstrip_starts_clean. Qed.

Lemma strip_ends_clean s : ends_clean (strip s).
Proof. apply rstrip_ends_clean. Qed.

Lemma strip_clean s : starts_clean s -> ends_clean s -> strip s = s.
Proof. intros H1 H2. unfold strip. by rewrite lstrip_clean, rstrip_clean. Qed.

Lemma lower_starts_clean s : starts_clean s -> starts_clean (lower s).
Proof. destruct s as [|c s]; simpl; [done|]. by rewrite lower_char_space. Qed.

Lemma lower_ends_clean s : ends_clean s -> ends_clean (lower s).
Proof.
  destruct s as [|c s _] using rev_ind; [done|].
  unfold ends_clean, lower. rewrite map_app.
  change (map lower_char [c]) with [lower_char c].
  rewrite !last_snoc. by rewrite lower_char_space.
Qed.

Lemma sub_ws_starts_clean s : starts_clean s -> starts_clean (sub_ws false s).
Proof. destruct s as [|c s]; simpl; [done|]. intros E. rewrite E. exact E. Qed.

Lemma sub_ws_snoc b s c :
  is_space c = false -> sub_ws b (s ++ [c]) = sub_ws b s ++ [c].
Proof.
  intros Hc. revert b. induction s as [|a s IH]; intros b; simpl.
  - by rewrite Hc.
  - destruct (is_space a); [destruct b|]; by rewrite IH.
Qed.

Lemma sub_ws_ends_clean b s : ends_clean s -> ends_clean (sub_ws b s).
Proof.
  destruct s as [|c s _] using rev_ind; [done|].
  unfold ends_clean. rewrite last_snoc. intros Hc.
  by rewrite sub_ws_snoc, last_snoc.
Qed.

Lemma sub_ws_single_spaced b s : single_spaced b (sub_ws b s) = true.
Proof.
  revert b. induction s as [|c s IH]; intros b; simpl; [done|].
  destruct (is_space c) eqn:E.
  - destruct b; [apply IH|]. simpl. apply IH.
  - simpl. rewrite E. apply IH.
Qed.

Lemma sub_ws_fixed b s : single_spaced b s = true -> sub_ws b s = s.
Proof.
  revert b. induction s as [|c s IH]; intros b; simpl; [done|].
  destruct (is_space c).
  - intros [[Hb Hc%N.eqb_eq]%andb_true_iff Hs]%andb_true_iff.
    destruct b; [done|]. by rewrite IH, Hc.
  - intros Hs. by rewrite IH.
Qed.

Lemma single_spaced_lower b s :
  single_spaced b s = true -> single_spaced b (lower s) = true.
Proof.
  revert b. induction s as [|c s IH]; intros b; simpl; [done|].
  rewrite lower_char_space. destruct (is_space c) eqn:E.
  - intros [[Hb Hc%N.eqb_eq]%andb_true_iff Hs]%andb_true_iff.
    subst c. rewrite Hb. simpl. by apply IH.
  - apply IH.
Qed.

Lemma lower_idem s : lower (lower s) = lower s.
Proof.
  unfold lower. rewrite map_map. apply map_ext. intros c. apply lower_char_idem.
Qed.

Lemma lower_sub_ws b s : lower (sub_ws b s) = sub_ws b (lower s).
Proof.
  revert b. induction s as [|c s IH]; intros b; simpl; [done|].
  rewrite lower_char_space. destruct (is_space c); [destruct b|]; simpl;
    by rewrite ?IH.
Qed.

Lemma forallb_lstrip (P : N -> bool) s :
  forallb P s = true -> forallb P (lstrip s) = true.
Proof.
  induction s as [|c s IH]; simpl; [done|].
  intros [Hc Hs]%andb_true_iff. destruct (is_space c); [by apply IH|].
  simpl. by rewrite Hc, Hs.
Qed.

Lemma forallb_rev (P : N -> bool) s : forallb P (rev s) = forallb P s.
Proof.
  induction s as [|c s IH]; simpl; [done|].
  rewrite forallb_app, IH. simpl. rewrite andb_true_r. apply andb_comm.
Qed.

Lemma forallb_strip (P : N -> bool) s :
  forallb P s = true -> forallb P (strip s) = true.
Proof.
  intros Hs. unfold strip, rstrip. rewrite forallb_rev.
  apply forallb_lstrip. rewrite forallb_rev. by apply forallb_lstrip.
Qed.

Lemma ascii_lower s : forallb is_ascii s = true -> forallb is_ascii (lower s) = true.
Proof.
  induction s as [|c s IH]; simpl; [done|].
  intros [Hc Hs]%andb_true_iff. by rewrite lower_char_ascii, IH.
Qed.

Lemma ascii_sub_ws b s :
  forallb is_ascii s = true -> forallb is_ascii (sub_ws b s) = true.
Proof.
  revert b. induction s as [|c s IH]; intros b; simpl; [done|].
  intros [Hc Hs]%andb_true_iff.
  destruct (is_space c); [destruct b|]; simpl; rewrite ?Hc; by apply IH.
Qed.

Lemma ascii_encode s : forallb is_ascii (encode_ascii_ignore s) = true.
Proof.
  induction s as [|c s IH]; simpl; [done|].
  destruct (is_ascii c) eqn:E; simpl; by rewrite ?E.
Qed.

Lemma encode_ascii_fixed s :
  forallb is_ascii s = true -> encode_ascii_ignore s = s.
Proof.
  induction s as [|c s IH]; simpl; [done|].
  intros [Hc Hs]%andb_true_iff. rewrite Hc. f_equal. by apply IH.
Qed.

Lemma canonical_nil : canonical [].
Proof. by split. Qed.

Lemma normalize_canonical `{Unicode} s : canonical (normalize s).
Proof.
  destruct s as [|c s]; [apply canonical_nil|].
  unfold normalize. set (t := encode_ascii_ignore _).
  split.
  - apply ascii_sub_ws, ascii_lower, forallb_strip, ascii_encode.
  - by rewrite lower_sub_ws, lower_idem.
  - apply sub_ws_starts_clean, lower_starts_clean, strip_starts_clean.
  - apply sub_ws_ends_clean, lower_ends_clean, strip_ends_clean.
  - apply sub_ws_single_spaced.
Qed.

Lemma normalize_fixed `{UnicodeSpec} s : canonical s -> normalize s = s.
Proof.
  intros [Ha Hl Hs He Hsp].
  destruct s as [|c s]; [done|].
  unfold normalize.
  rewrite (nfkd_ascii _ Ha), (encode_ascii_fixed _ Ha).
  rewrite (strip_clean _ Hs He), Hl.
  by apply sub_ws_fixed.
Qed.

(** C3. [normalize] is idempotent: normalising a normalised string
    changes nothing. The result depends on the input string only (and on
    the Unicode tables), as [normalize] is a function. *)
Theorem normalize_idempotent (U : Unicode) (HU : UnicodeSpec U) (s : str) :
  normalize (normalize s) = normalize s.
Proof. apply normalize_fixed, normalize_canonical. Qed.

(** ** The price pattern *)

Section Pattern.
Context {U : Unicode}.
Local Open Scope nat_scope.

Lemma ws_then_euro_run w r :
  forallb is_space w = true -> ws_then_euro (w ++ EURO :: r) = true.
Proof.
  induction w as [|c w IH]; simpl; [done|].
  intros [Hc Hw]%andb_true_iff. by rewrite Hc, IH.
Qed.

Lemma ws_then_euro_inv s :
  ws_then_euro s = true ->
  exists w r, s = w ++ EURO :: r /\ forallb is_space w = true.
Proof.
  induction s as [|c s IH]; simpl; [done|].
  intros [[Hc Hs]%andb_true_iff | Hc%N.eqb_eq]%orb_true_iff.
  - destruct (IH Hs) as (w & r & -> & Hw).
    exists (c :: w), r. simpl. by rewrite Hc, Hw.
  - subst c. by exists [], s.
Qed.

Lemma stop_Some n s g :
  (if ws_then_euro s then Some [] else None) = Some g ->
  exists r, s = g ++ r /\ length g <= n /\ forallb is_class g = true
            /\ ws_then_euro r = true.
Proof.
  destruct (ws_then_euro s) eqn:E; [|done].
  intros [= <-]. exists s. simpl. repeat split; [lia | done].
Qed.

Lemma class_upto_Some n s g :
  class_upto n s = Some g ->
  exists r, s = g ++ r /\ length g <= n /\ forallb is_class g = true
            /\ ws_then_euro r = true.
Proof.
  revert s g. induction n as [|n IH]; intros s g.
  - destruct s; cbn [class_upto]; apply stop_Some.
  - destruct s as [|c s]; cbn [class_upto]; [apply stop_Some|].
    fold (is_class c).
    destruct (is_class c) eqn:Ec; [|apply stop_Some].
    destruct (class_upto n s) as [g'|] eqn:Eg; [|apply stop_Some].
    intros [= <-].
    destruct (IH s g' Eg) as (r & -> & Hl & Hc & Hr).
    exists r. simpl. rewrite Ec, Hc. repeat split; [lia | done].
Qed.

Lemma match_here_Some s g :
  match_here s = Some g ->
  exists d body w r,
    g = d :: body /\ s = d :: body ++ w ++ EURO :: r /\
    is_digit d = true /\ length body <= 6 /\
    forallb is_class body = true /\ forallb is_space w = true.
Proof.
  unfold match_here. destruct s as [|d s]; [done|].
  destruct (is_digit d) eqn:Ed; [|done].
  destruct (class_upto 6 s) as [body|] eqn:Eb; [|done].
  intros [= <-].
  apply class_upto_Some in Eb as (r & -> & Hl & Hc & Hr).
  apply ws_then_euro_inv in Hr as (w & r' & -> & Hw).
  by exists d, body, w, r'.
Qed.

(** A match found by the search is a match at some suffix. *)
Lemma re_search_suffix s g :
  re_search s = Some g -> exists a t, s = a ++ t /\ match_here t = Some g.
Proof.
  induction s as [|c s IH]; cbn [re_search]; [done|].
  destruct (match_here (c :: s)) as [g'|] eqn:E.
  - intros [= <-]. by exists [], (c :: s).
  - intros (a & t & -> & Ht)%IH. by exists (c :: a), t.
Qed.

Lemma re_search_Some s g :
  re_search s = Some g -> exists t, match_here t = Some g.
Proof. intros (a & t & _ & Ht)%re_search_suffix. by exists t. Qed.

(** Group 1 has at most seven characters, the first one a digit. *)
Lemma re_search_length s g : re_search s = Some g -> length g <= 7.
Proof.
  intros [t Ht]%re_search_Some.
  apply match_here_Some in Ht as (d & body & w & r & -> & _ & _ & Hl & _).
  simpl. lia.
Qed.

(** The value of a digit string and the range of [int]. *)
Lemma digits_fold_bound `{!UnicodeSpec U} s acc :
  (0 <= acc)%Z ->
  (0 <= fold_left (fun acc c => 10 * acc + default 0 (decimal c)) s acc
     < (acc + 1) * 10 ^ Z.of_nat (length s))%Z.
Proof.
  revert acc. induction s as [|c s IH]; intros acc Hacc.
  - simpl. lia.
  - cbn [fold_left length].
    assert (Hd : (0 <= default 0 (decimal c) <= 9)%Z).
    { destruct (decimal c) as [d|] eqn:E; simpl; [|lia].
      by apply (decimal_range c). }
    set (d := default 0%Z (decimal c)) in *.
    assert (Hacc' : (0 <= 10 * acc + d)%Z) by lia.
    specialize (IH (10 * acc + d)%Z Hacc').
    rewrite Nat2Z.inj_succ, Z.pow_succ_r by lia.
    assert (0 < 10 ^ Z.of_nat (length s))%Z by (apply Z.pow_pos_nonneg; lia).
    nia.
Qed.

Lemma length_remove_spaces s : length (remove_spaces s) <= length s.
Proof.
  unfold remove_spaces. induction s as [|c s IH]; simpl; [done|].
  destruct (negb (c =? SPACE)%N); simpl; lia.
Qed.

Lemma length_int_lstrip s : length (int_lstrip s) <= length s.
Proof.
  induction s as [|c s IH]; simpl; [done|].
  destruct (is_int_space c); simpl; lia.
Qed.

Lemma length_int_strip s : length (int_strip s) <= length s.
Proof.
  unfold int_strip, int_rstrip. rewrite length_rev.
  etrans; [apply length_int_lstrip|]. rewrite length_rev.
  apply length_int_lstrip.
Qed.

Lemma py_int_range `{!UnicodeSpec U} s z :
  py_int s = Some z -> (0 <= z < 10 ^ Z.of_nat (length s))%Z.
Proof.
  unfold py_int. pose proof (length_int_strip s) as Hl.
  destruct (int_strip s) as [|c t] eqn:E; [done|].
  destruct (forallb is_digit (c :: t)); [|done].
  intros [= <-]. unfold digits_value.
  pose proof (digits_fold_bound (c :: t) 0 ltac:(lia)) as Hb.
  split; [lia|].
  eapply Z.lt_le_trans; [apply Hb|].
  rewrite Z.mul_1_l. apply Z.pow_le_mono_r; lia.
Qed.

(** A price read from a page is below ten million. *)
Lemma parse_price_range `{!UnicodeSpec U} text z :
  parse_price text = Some z -> (0 <= z < 10 ^ 7)%Z.
Proof.
  unfold parse_price. destruct text as [[|c t]|]; [done| |done].
  destruct (re_search _) as [g|] eqn:Eg; [|done].
  intros Hz%py_int_range. apply re_search_length in Eg.
  pose proof (length_remove_spaces g).
  split; [lia|].
  eapply Z.lt_le_trans; [apply Hz|]. apply Z.pow_le_mono_r; lia.
Qed.

Lemma float_of_int_exact z :
  (0 <= z < 2 ^ 53)%Z -> float_of_int z = Ok (inject_Z z).
Proof.
  intros Hz. unfold float_of_int.
  assert (Z.log2 (Z.abs z) + 1 <= 53)%Z as ->%Z.leb_le; [|done].
  rewrite Z.abs_eq by lia.
  destruct (Z.eq_dec z 0%Z) as [->|Hne]; [done|].
  assert (Z.log2 z < 53)%Z; [|lia].
  apply Z.log2_lt_pow2; lia.
Qed.

End Pattern.

(** ** The rule predicates *)

Section Rules.
Context {U : Unicode}.

Lemma existsb_map_compose {A B} (f : A -> B) (p : B -> bool) l :
  existsb p (map f l) = existsb (fun a => p (f a)) l.
Proof. induction l as [|a l IH]; simpl; [done|]. by rewrite IH. Qed.

Lemma starts_with_spec p s : starts_with p s = true <-> exists b, s = p ++ b.
Proof.
  revert s. induction p as [|a p IH]; intros s; simpl.
  - split; [by exists s | done].
  - destruct s as [|c s].
    + split; [done | by intros [b Hb]].
    + rewrite andb_true_iff, N.eqb_eq, IH. split.
      * intros [-> [b ->]]. by exists b.
      * intros [b [= -> ->]]. split; [done | by exists b].
Qed.

(** [contains] decides the substring relation. *)
Lemma contains_spec hay needle :
  contains hay needle = true <-> substring needle hay.
Proof.
  unfold substring. induction hay as [|c hay IH]; cbn [contains].
  - rewrite orb_false_r, starts_with_spec. split.
    + intros [b Hb]. by exists [], b.
    + intros (a & b & Hab). symmetry in Hab.
      apply app_eq_nil in Hab as [-> Hab].
      apply app_eq_nil in Hab as [-> ->]. by exists [].
  - rewrite orb_true_iff, starts_with_spec, IH. split.
    + intros [[b Hb] | (a & b & ->)].
      * by exists [], b.
      * by exists (c :: a), b.
    + intros (a & b & Hab). destruct a as [|c' a].
      * left. by exists b.
      * injection Hab as -> ->. right. by exists a, b.
Qed.

Lemma in_model_range_same title ms :
  V2.in_model_range title ms = V1.in_model_range title ms.
Proof. by destruct ms. Qed.

Lemma shipping_passes_same text cfg :
  V2.shipping_passes text cfg = V1.shipping_passes text cfg.
Proof.
  unfold V2.shipping_passes, V1.shipping_passes.
  destruct (require_shipping cfg); [|done]. cbn [negb].
  rewrite !existsb_map_compose.
  by destruct (shipping_positive cfg), (shipping_negative cfg).
Qed.

Lemma terms_pass_same title desc cfg :
  V2.terms_pass title desc cfg = V1.terms_pass title desc cfg.
Proof.
  unfold V2.terms_pass, V1.terms_pass.
  rewrite !existsb_map_compose.
  by destruct (terms_exclude cfg).
Qed.

Lemma Qle_bool_inject a b : Qle_bool (inject_Z a) (inject_Z b) = (a <=? b)%Z.
Proof. unfold Qle_bool, inject_Z. simpl. by rewrite !Z.mul_1_r. Qed.

(** On the prices a page can give, the two price tests differ only when
    [price_min] is absent and [price_max] is present. *)
Lemma price_ok_same z cfg :
  (0 <= z < 10 ^ 7)%Z ->
  is_Some (price_min cfg) \/ price_max cfg = None ->
  V1.price_ok (Some z) cfg = V2.price_ok (Some z) cfg.
Proof.
  intros Hz Hcfg. unfold V1.price_ok, V2.price_ok.
  rewrite float_of_int_exact by lia. cbn [mbind result_bind].
  assert (Hhi : Qle_bool (inject_Z z) (inject_Z (10 ^ 9)) = true).
  { rewrite Qle_bool_inject. apply Z.leb_le. lia. }
  assert (Hlo : Qle_bool 0 (inject_Z z) = true).
  { change 0%Q with (inject_Z 0). rewrite Qle_bool_inject. apply Z.leb_le. lia. }
  destruct (price_min cfg) as [lo|], (price_max cfg) as [hi|];
    cbn -[Qle_bool inject_Z Z.pow]; try done.
  - destruct lo as [q| |[]|]; cbn -[Qle_bool inject_Z Z.pow]; try done.
    destruct (Qle_bool q (inject_Z z)); cbn -[Qle_bool inject_Z Z.pow];
      by rewrite ?Hhi.
  - by destruct Hcfg as [[? [=]] | [=]].
  - by rewrite Hlo, Hhi.
Qed.

End Rules.

(** ** The database used in the examples *)

Lemma small_decompose_ascii c : is_ascii c = true -> small_decompose c = [c].
Proof.
  unfold is_ascii, small_decompose. intros Hc%N.ltb_lt.
  repeat match goal with
         | |- context [?a =? ?b] => destruct (N.eqb_spec a b); [lia|]
         end.
  done.
Qed.

Lemma small_unicode_spec : UnicodeSpec small_unicode.
Proof.
  split.
  - intros s. simpl. induction s as [|c s IH]; simpl; [done|].
    intros [Hc Hs]%andb_true_iff.
    by rewrite small_decompose_ascii, IH.
  - intros c Hc. simpl. unfold small_decimal.
    destruct (N.leb_spec 48 c), (N.leb_spec c 57); simpl; (done || lia).
  - intros c d. simpl. unfold small_decimal.
    destruct (N.leb_spec 48 c), (N.leb_spec c 57); simpl;
      destruct (N.leb_spec 1632 c), (N.leb_spec c 1641); simpl;
      intros [= <-]; lia.
  - intros c. simpl. unfold is_space, small_decimal.
    rewrite !orb_true_iff, !andb_true_iff, !N.leb_le, !N.eqb_eq. intros Hc.
    destruct (N.leb_spec 48 c), (N.leb_spec c 57); simpl;
      destruct (N.leb_spec 1632 c), (N.leb_spec c 1641); simpl; (done || lia).
  - reflexivity.
Qed.

(** ** Claims about the rule predicates *)

(** C4. Whatever the configuration, [price_ok] answers true for the
    unknown price, in the three variants. *)
Theorem price_ok_unknown (cfg : config) :
  V1.price_ok None cfg = true /\
  V2.price_ok None cfg = true /\
  Web.price_ok None cfg = true.
Proof. by repeat split. Qed.

(** C2. A configuration with no models, no terms, no shipping
    requirement and no price bound passes every listing through the four
    predicates: in [mode_a_bot.py] for any price, in the two other
    variants for any price that [parse_price] reads from a page. *)
Theorem unconstrained_accepts (U : Unicode) (HU : UnicodeSpec U)
    (cfg : config) (title desc text : str) :
  unconstrained cfg ->
  (forall price : option Z,
     V1.in_model_range title (models cfg) = true /\
     V1.price_ok price cfg = true /\
     V1.shipping_passes text cfg = true /\
     V1.terms_pass title desc cfg = true) /\
  (forall price_text : option str,
     V2.in_model_range title (models cfg) = true /\
     V2.price_ok (parse_price price_text) cfg = true /\
     V2.shipping_passes text cfg = true /\
     V2.terms_pass title desc cfg = true /\
     Web.in_model_range title (models cfg) = true /\
     Web.price_ok (parse_price price_text) cfg = true /\
     Web.shipping_passes text cfg = true /\
     Web.terms_pass title desc cfg = true).
Proof.
  intros (Hm & Ha & He & Hs & Hlo & Hhi).
  assert (H1 : forall price, V1.price_ok price cfg = true).
  { intros [z|]; [|done]. unfold V1.price_ok. rewrite Hlo.
    by destruct (float_of_int z). }
  assert (H2 : forall t, V2.price_ok (parse_price t) cfg = true).
  { intros t. destruct (parse_price t) as [z|] eqn:E; [|done].
    rewrite <- (price_ok_same z cfg); [apply H1| |by right].
    by apply parse_price_range in E. }
  split.
  - intros price. repeat split; [|apply H1| |].
    + unfold V1.in_model_range. by rewrite Hm.
    + unfold V1.shipping_passes. by rewrite Hs.
    + unfold V1.terms_pass. by rewrite Ha, He.
  - intros t. unfold Web.in_model_range, Web.price_ok, Web.shipping_passes,
      Web.terms_pass.
    rewrite in_model_range_same, shipping_passes_same, terms_pass_same.
    unfold V1.in_model_range, V1.shipping_passes, V1.terms_pass.
    rewrite Hm, Hs, Ha, He. by rewrite H2.
Qed.

Lemma unconstrained_accepts_witness :
  unconstrained empty_cfg /\
  V2.price_ok (@parse_price small_unicode (Some (lit "9999999" ++ [EURO])))
    empty_cfg = true.
Proof.
  split; [by repeat split|].
  exact (proj1 (proj2 (proj2 (unconstrained_accepts small_unicode small_unicode_spec
    empty_cfg (lit "a") (lit "b") (lit "c") ltac:(by repeat split)) _))).
Defined.

(** C5. When the normalised title and description contain the normalised
    form of an excluded term, [terms_pass] is false and the listing is
    rejected, whatever [terms_any] and [models] are and whatever else
    matches, in the three variants. *)
Theorem exclusion_dominates (U : Unicode) (cfg : config) (it : item) (term : str) :
  In term (terms_exclude cfg) ->
  substring (normalize term) (normalize (title it ++ [SPACE] ++ desc it)) ->
  (V1.terms_pass (title it) (desc it) cfg = false /\ V1.accepts cfg it = false) /\
  (V2.terms_pass (title it) (desc it) cfg = false /\ V2.accepts cfg it = false) /\
  (Web.terms_pass (title it) (desc it) cfg = false /\ Web.accepts cfg it = false).
Proof.
  intros Hin Hsub%contains_spec.
  assert (H1 : V1.terms_pass (title it) (desc it) cfg = false).
  { unfold V1.terms_pass.
    assert (existsb (fun t => contains (normalize (title it ++ [SPACE] ++ desc it))
                                (normalize t)) (terms_exclude cfg) = true) as ->.
    { apply existsb_exists. by exists term. }
    destruct (terms_exclude cfg); [done|]. apply andb_false_r. }
  assert (H2 : V2.terms_pass (title it) (desc it) cfg = false)
    by by rewrite terms_pass_same.
  repeat split; try done.
  - unfold V1.accepts. rewrite H1. apply andb_false_r.
  - unfold V2.accepts. rewrite H2. apply andb_false_r.
  - unfold Web.accepts, Web.terms_pass. rewrite H2.
    by rewrite andb_false_r.
Qed.

Lemma exclusion_dominates_witness :
  @V1.accepts small_unicode sample_cfg broken_item = false.
Proof.
  refine (proj2 (proj1 (exclusion_dominates small_unicode sample_cfg broken_item
    (lit "cass" ++ [233%N]) _ _))).
  - simpl. by left.
  - by exists (lit "iphone 12 ecran "), [].
Defined.

(** C6. The three variants do not always take the same decision: with
    only [price_max] configured, a listing priced above it is accepted
    by [mode_a_bot.py], whose [price_ok] reads [cfg["price_min"]] first
    and turns the [KeyError] into [True], and rejected by the two other
    variants, which compare with the defaults. *)
Lemma variants_disagree :
  price dear_item = Some 500%Z /\
  @V1.accepts small_unicode max_only_cfg dear_item = true /\
  @V2.accepts small_unicode max_only_cfg dear_item = false /\
  @Web.accepts small_unicode max_only_cfg dear_item = false.
Proof. by vm_compute. Qed.

(** Apart from that case the variants decide alike. The second and the
    web variant take the same decision on every listing, whatever the
    order of their tests. The first variant takes that decision too when
    [price_min] is present or [price_max] is absent, on every listing
    whose price was read by [parse_price]; when [price_min] is absent
    its [KeyError] is swallowed and the first variant applies no price
    band at all. *)
Lemma variants_agree (U : Unicode) (HU : UnicodeSpec U) :
  (forall cfg it, V2.accepts cfg it = Web.accepts cfg it) /\
  (forall cfg it price_text,
     price it = parse_price price_text ->
     is_Some (price_min cfg) \/ price_max cfg = None ->
     V1.accepts cfg it = V2.accepts cfg it) /\
  (forall cfg price, price_min cfg = None -> V1.price_ok price cfg = true).
Proof.
  repeat split.
  - intros cfg it. unfold V2.accepts, Web.accepts, Web.in_model_range,
      Web.price_ok, Web.terms_pass, Web.shipping_passes.
    rewrite <- !andb_assoc. do 2 f_equal. apply andb_comm.
  - intros cfg it t Hp Hcfg. unfold V1.accepts, V2.accepts.
    rewrite shipping_passes_same, terms_pass_same.
    assert (V1.price_ok (price it) cfg = V2.price_ok (price it) cfg) as ->; [|done].
    rewrite Hp. destruct (parse_price t) as [z|] eqn:E; [|done].
    apply price_ok_same; [|done]. by apply parse_price_range in E.
  - intros cfg [z|] Hlo; [|done]. unfold V1.price_ok. rewrite Hlo.
    by destruct (float_of_int z).
Qed.

Lemma variants_agree_witness :
  @V1.accepts small_unicode sample_cfg dear_item
  = @V2.accepts small_unicode sample_cfg dear_item.
Proof.
  refine (proj1 (proj2 (variants_agree small_unicode small_unicode_spec))
    sample_cfg dear_item (Some (lit "500 " ++ [EURO])) _ _).
  - reflexivity.
  - left. by eexists.
Defined.

(** ** What [parse_price] reads *)

Section PriceRun.
Context {U : Unicode} {HU : UnicodeSpec U}.
Local Open Scope nat_scope.

Lemma digit_not_space c : is_digit c = true -> is_space c = false.
Proof.
  unfold is_digit. destruct (is_space c) eqn:E; [|done].
  by rewrite (decimal_not_space c E).
Qed.

Lemma space_not_digit c : is_space c = true -> is_digit c = false.
Proof. intros E. unfold is_digit. by rewrite (decimal_not_space c E). Qed.

Lemma euro_not_class : is_class EURO = false.
Proof. unfold is_class, is_digit. by rewrite decimal_not_euro. Qed.

Lemma class_upto_ws n w r :
  forallb is_space w = true ->
  class_upto n (w ++ EURO :: r) = Some (take n w).
Proof.
  revert w. induction n as [|n IH]; intros w Hw.
  - cbn [class_upto]. by rewrite (ws_then_euro_run w r Hw).
  - destruct w as [|c w]; cbn [class_upto app].
    + pose proof euro_not_class as He. unfold is_class in He. rewrite He.
      pose proof (ws_then_euro_run [] r eq_refl) as Hr. simpl app in Hr.
      by rewrite Hr.
    + simpl in Hw. apply andb_true_iff in Hw as [Hc Hw].
      rewrite Hc, orb_true_r, (IH w Hw). done.
Qed.

Lemma class_upto_run n body w r :
  forallb is_class body = true -> forallb is_space w = true ->
  length body <= n ->
  class_upto n (body ++ w ++ EURO :: r) = Some (body ++ take (n - length body) w).
Proof.
  revert n. induction body as [|c body IH]; intros n Hb Hw Hn.
  - simpl. rewrite Nat.sub_0_r. by apply class_upto_ws.
  - destruct n as [|n]; [simpl in Hn; lia|].
    simpl in Hb, Hn. apply andb_true_iff in Hb as [Hc Hb].
    cbn [class_upto app]. fold (is_class c). rewrite Hc.
    rewrite (IH n Hb Hw) by lia. done.
Qed.

(** The first occurrence of a character splits a string in one way. *)
Lemma first_split_unique (x : N) l1 r1 l2 r2 :
  l1 ++ x :: r1 = l2 ++ x :: r2 -> ~ In x l1 -> ~ In x l2 -> l1 = l2.
Proof.
  revert l2. induction l1 as [|a l1 IH]; intros [|b l2]; simpl; try done.
  - intros [= <- _] _ Hb. tauto.
  - intros [= -> _] Ha _. tauto.
  - intros [= -> Heq] Ha Hb. f_equal. apply IH; tauto.
Qed.

Lemma class_no_euro s : forallb is_class s = true -> ~ In EURO s.
Proof.
  induction s as [|c s IH]; simpl; [tauto|].
  intros [Hc Hs]%andb_true_iff [-> | Hin]; [|by apply IH].
  by rewrite euro_not_class in Hc.
Qed.

Lemma space_is_class s : forallb is_space s = true -> forallb is_class s = true.
Proof.
  induction s as [|c s IH]; simpl; [done|].
  intros [Hc Hs]%andb_true_iff. unfold is_class at 1.
  by rewrite Hc, orb_true_r, IH.
Qed.

(** A string of digits and white space that starts with a digit keeps a
    digit as its last character once trimmed on the right. *)
Lemma rstrip_class_last a d b :
  is_digit d = true -> forallb is_class b = true ->
  exists c, last (rstrip (a ++ d :: b)) = Some c /\ is_digit c = true.
Proof.
  intros Hd. induction b as [|c b IH] using rev_ind; intros Hb.
  - exists d. rewrite rstrip_snoc.
    rewrite (digit_not_space d Hd). by rewrite last_snoc.
  - rewrite forallb_app in Hb. apply andb_true_iff in Hb as [Hb Hc].
    simpl in Hc. rewrite andb_true_r in Hc.
    replace (a ++ d :: b ++ [c]) with ((a ++ d :: b) ++ [c])
      by by rewrite <- app_assoc.
    rewrite rstrip_snoc. destruct (is_space c) eqn:Ec; [by apply IH|].
    exists c. rewrite last_snoc. split; [done|].
    unfold is_class in Hc. by rewrite Ec, orb_false_r in Hc.
Qed.

(** The pattern matches where it can, and takes the longest group. *)
Lemma match_here_run d body w r :
  is_digit d = true -> forallb is_class body = true -> length body <= 6 ->
  forallb is_space w = true ->
  match_here (d :: body ++ w ++ EURO :: r)
  = Some (d :: body ++ take (6 - length body) w).
Proof.
  intros Hd Hb Hl Hw. unfold match_here. rewrite Hd.
  by rewrite (class_upto_run 6 body w r Hb Hw Hl).
Qed.

Lemma match_here_starts s g : match_here s = Some g -> starts_price s.
Proof.
  intros (d & body & w & r & _ & Hs & H')%match_here_Some.
  by exists d, body, w, r.
Qed.

(** The search goes past a prefix in which no match starts. *)
Lemma re_search_first pre rest :
  (forall a b, pre = a ++ b -> b <> [] -> match_here (b ++ rest) = None) ->
  re_search (pre ++ rest) = re_search rest.
Proof.
  intros Hno.
  assert (Hgen : forall a b, pre = a ++ b ->
    re_search (b ++ rest) = re_search rest).
  { intros a b. revert a. induction b as [|c b IH]; intros a Hpre; [done|].
    pose proof (Hno a (c :: b) Hpre ltac:(done)) as Hc.
    cbn [app] in Hc. cbn [app re_search]. rewrite Hc.
    apply (IH (a ++ [c])). by rewrite <- app_assoc. }
  by apply (Hgen []).
Qed.

(** No match starts in [pre] when no euro sign of [pre] follows a digit
    across white space and [pre] ends at a boundary. *)
Lemma first_after_boundary pre run post :
  forallb is_class run = true ->
  (forall a b, pre = a ++ EURO :: b -> left_boundary a) ->
  left_boundary pre ->
  first_after pre (run ++ EURO :: post).
Proof.
  intros Hrun Heuro Hleft a b Hpre Hb
    (d0 & body0 & w0 & r0 & Heq & Hd0 & _ & Hb0 & Hw0).
  destruct b as [|c b]; [done|]. clear Hb.
  assert (Hcls : forallb is_class (body0 ++ w0) = true).
  { rewrite forallb_app, Hb0. by apply space_is_class. }
  assert (Hseg : ~ In EURO (d0 :: body0 ++ w0)).
  { apply (class_no_euro (d0 :: body0 ++ w0)).
    simpl. unfold is_class at 1. by rewrite Hd0, Hcls. }
  destruct (decide (EURO ∈ c :: b)) as [Hin|Hin].
  - apply list_elem_of_split_l in Hin as (b1 & b2 & Hcb & Hb1).
    assert (Hb1' : b1 = d0 :: body0 ++ w0).
    { apply (first_split_unique EURO b1 (b2 ++ run ++ EURO :: post) _ r0).
      - rewrite Hcb, <- app_assoc in Heq. cbn [app] in Heq |- *.
        rewrite <- app_assoc. exact Heq.
      - intros Hx. apply Hb1. by apply list_elem_of_In.
      - done. }
    subst b1.
    assert (Hpre' : pre = (a ++ d0 :: body0 ++ w0) ++ EURO :: b2).
    { rewrite Hpre, Hcb. by rewrite <- app_assoc. }
    specialize (Heuro _ _ Hpre').
    destruct (rstrip_class_last a d0 (body0 ++ w0) Hd0 Hcls) as (x & Hx & Hdx).
    unfold left_boundary in Heuro. rewrite Hx in Heuro. congruence.
  - assert (Hsplit : c :: b ++ run = d0 :: body0 ++ w0).
    { apply (first_split_unique EURO _ post _ r0).
      - cbn [app] in Heq |- *. rewrite <- !app_assoc. exact Heq.
      - change (c :: b ++ run) with ((c :: b) ++ run).
        intros [Hx | Hx]%in_app_or.
        + apply Hin. by apply list_elem_of_In.
        + by apply (class_no_euro run).
      - done. }
    injection Hsplit as -> Hsplit.
    assert (Hcb : forallb is_class b = true).
    { rewrite <- Hsplit, forallb_app in Hcls.
      by apply andb_true_iff in Hcls as [Hcls _]. }
    destruct (rstrip_class_last a d0 b Hd0 Hcb) as (x & Hx & Hdx).
    unfold left_boundary in Hleft. rewrite Hpre, Hx in Hleft. congruence.
Qed.

Lemma replace_nbsp_cons c s :
  replace_nbsp (c :: s) = (if (c =? NBSP)%N then SPACE else c) :: replace_nbsp s.
Proof. reflexivity. Qed.

Lemma remove_spaces_cons c s :
  remove_spaces (c :: s)
  = if negb (c =? SPACE)%N then c :: remove_spaces s else remove_spaces s.
Proof. reflexivity. Qed.

Lemma replace_nbsp_space c :
  is_space (if (c =? NBSP)%N then SPACE else c) = is_space c.
Proof. destruct (N.eqb_spec c NBSP) as [->|]; done. Qed.

Lemma replace_nbsp_digit c :
  is_digit (if (c =? NBSP)%N then SPACE else c) = is_digit c.
Proof.
  destruct (N.eqb_spec c NBSP) as [->|]; [|done].
  by rewrite !space_not_digit.
Qed.

Lemma no_euro_replace_nbsp s : ~ In EURO s -> ~ In EURO (replace_nbsp s).
Proof.
  intros Hs [c [Hc Hin]]%in_map_iff. apply Hs.
  destruct (N.eqb_spec c NBSP); [done | by subst].
Qed.

Lemma space_replace_nbsp s :
  forallb is_space s = true -> forallb is_space (replace_nbsp s) = true.
Proof.
  induction s as [|c s IH]; [done|]. rewrite replace_nbsp_cons. cbn [forallb].
  intros [Hc Hs]%andb_true_iff. rewrite replace_nbsp_space, Hc. by apply IH.
Qed.

Lemma grouped_class s :
  forallb is_grouped s = true -> forallb is_class (replace_nbsp s) = true.
Proof.
  induction s as [|c s IH]; [done|]. rewrite replace_nbsp_cons. cbn [forallb].
  intros [Hc Hs]%andb_true_iff. rewrite (IH Hs), andb_true_r.
  unfold is_class. rewrite replace_nbsp_digit, replace_nbsp_space.
  unfold is_grouped in Hc.
  apply orb_true_iff in Hc as [[Hc | Hc%N.eqb_eq]%orb_true_iff | Hc%N.eqb_eq];
    [by rewrite Hc | by subst c; rewrite orb_true_r ..].
Qed.

Lemma remove_spaces_grouped s :
  forallb is_grouped s = true ->
  remove_spaces (replace_nbsp s) = List.filter is_digit s.
Proof.
  induction s as [|c s IH]; [done|].
  rewrite replace_nbsp_cons, remove_spaces_cons. cbn [forallb List.filter].
  intros [Hc Hs]%andb_true_iff.
  rewrite (IH Hs). unfold is_grouped in Hc.
  destruct (is_digit c) eqn:Ed.
  - pose proof (digit_not_space c Ed) as Hsp.
    destruct (N.eqb_spec c NBSP) as [->|]; [done|].
    destruct (N.eqb_spec c SPACE) as [->|]; done.
  - simpl in Hc. apply orb_true_iff in Hc as [Hc%N.eqb_eq | Hc%N.eqb_eq];
      by subst c.
Qed.

Lemma remove_spaces_space s :
  forallb is_space s = true -> forallb is_space (remove_spaces s) = true.
Proof.
  induction s as [|c s IH]; [done|]. rewrite remove_spaces_cons. cbn [forallb].
  intros [Hc Hs]%andb_true_iff.
  destruct (negb (c =? SPACE)%N); [|by apply IH].
  cbn [forallb]. rewrite Hc. by apply IH.
Qed.

Lemma space_take n s :
  forallb is_space s = true -> forallb is_space (take n s) = true.
Proof.
  revert n. induction s as [|c s IH]; intros [|n]; try done.
  cbn [take forallb]. intros [Hc Hs]%andb_true_iff. rewrite Hc. by apply IH.
Qed.

Lemma remove_spaces_app a b :
  remove_spaces (a ++ b) = remove_spaces a ++ remove_spaces b.
Proof. unfold remove_spaces. apply List.filter_app. Qed.

Lemma digits_filter s : forallb is_digit (List.filter is_digit s) = true.
Proof.
  induction s as [|c s IH]; [done|]. cbn [List.filter].
  destruct (is_digit c) eqn:E; [|done]. cbn [forallb]. by rewrite E.
Qed.

Lemma replace_nbsp_int_space c :
  is_int_space (if (c =? NBSP)%N then SPACE else c) = is_int_space c.
Proof. destruct (N.eqb_spec c NBSP) as [->|]; done. Qed.

Lemma replace_nbsp_class c :
  is_class (if (c =? NBSP)%N then SPACE else c) = is_class c.
Proof. unfold is_class. by rewrite replace_nbsp_digit, replace_nbsp_space. Qed.

Lemma forallb_replace_nbsp (p : N -> bool) s :
  (forall c, p (if (c =? NBSP)%N then SPACE else c) = p c) ->
  forallb p (replace_nbsp s) = forallb p s.
Proof.
  intros Hp. induction s as [|c s IH]; [done|].
  rewrite replace_nbsp_cons. cbn [forallb]. by rewrite Hp, IH.
Qed.

Lemma replace_nbsp_run pre d body ws post :
  is_digit d = true ->
  replace_nbsp (pre ++ d :: body ++ ws ++ EURO :: post)
  = replace_nbsp pre ++ d :: replace_nbsp body ++ replace_nbsp ws
      ++ EURO :: replace_nbsp post.
Proof.
  intros Hd. unfold replace_nbsp. rewrite map_app. cbn [map].
  rewrite !map_app. cbn [map].
  pose proof (digit_not_space d Hd).
  destruct (N.eqb_spec d NBSP) as [->|]; done.
Qed.

(** Replacing the non-breaking spaces does not make the pattern match
    where it did not. *)
Lemma starts_price_replace_nbsp s :
  starts_price (replace_nbsp s) -> starts_price s.
Proof.
  intros (d & body & w & r & Heq & Hd & Hl & Hb & Hw).
  unfold replace_nbsp in Heq.
  apply map_eq_cons in Heq as (d0 & s1 & -> & Hd0 & Heq).
  apply map_eq_app in Heq as (body0 & s2 & -> & Hbody & Heq).
  apply map_eq_app in Heq as (w0 & s3 & -> & Hw0 & Heq).
  apply map_eq_cons in Heq as (e0 & r0 & -> & He0 & _).
  assert (e0 = EURO) as ->.
  { by destruct (N.eqb_spec e0 NBSP). }
  exists d0, body0, w0, r0. split; [done|].
  rewrite <- Hd0, replace_nbsp_digit in Hd.
  rewrite <- Hbody, length_map in Hl.
  rewrite <- Hbody in Hb. rewrite <- Hw0 in Hw.
  fold (replace_nbsp body0) in Hb. fold (replace_nbsp w0) in Hw.
  rewrite (forallb_replace_nbsp _ _ replace_nbsp_class) in Hb.
  by rewrite (forallb_replace_nbsp _ _ replace_nbsp_space) in Hw.
Qed.

Lemma int_rstrip_snoc s c :
  int_rstrip (s ++ [c]) = if is_int_space c then int_rstrip s else s ++ [c].
Proof.
  unfold int_rstrip. rewrite rev_app_distr. simpl.
  destruct (is_int_space c); [done|].
  simpl. by rewrite rev_involutive.
Qed.

Lemma int_space_space c : is_int_space c = true -> is_space c = true.
Proof. unfold is_int_space. by intros [? _]%andb_true_iff. Qed.

Lemma digit_not_int_space c : is_digit c = true -> is_int_space c = false.
Proof.
  intros Hd. unfold is_int_space. by rewrite (digit_not_space c Hd).
Qed.

(** [int] on digits followed by white space: the white space is skipped
    when [int] knows all of it, and is an error otherwise. *)
Lemma py_int_digits_ws d ds w :
  forallb is_digit (d :: ds) = true -> forallb is_space w = true ->
  py_int ((d :: ds) ++ w)
  = if forallb is_int_space w then Some (digits_value (d :: ds)) else None.
Proof.
  intros Hd Hw. unfold py_int, int_strip.
  assert (Hhead : int_lstrip ((d :: ds) ++ w) = (d :: ds) ++ w).
  { cbn [app int_lstrip]. cbn [forallb] in Hd.
    apply andb_true_iff in Hd as [Hd _]. by rewrite (digit_not_int_space d Hd). }
  rewrite Hhead. clear Hhead.
  induction w as [|c w IH] using rev_ind.
  - rewrite app_nil_r. cbn [forallb].
    assert (Hr : int_rstrip (d :: ds) = d :: ds).
    { destruct (exists_last (l := d :: ds) ltac:(done)) as (l' & x & Hx).
      rewrite Hx in Hd |- *. rewrite forallb_app in Hd.
      apply andb_true_iff in Hd as [_ Hd]. cbn [forallb] in Hd.
      rewrite andb_true_r in Hd.
      by rewrite int_rstrip_snoc, (digit_not_int_space x Hd). }
    rewrite Hr. cbn [forallb] in Hd. by rewrite Hd.
  - rewrite forallb_app in Hw. apply andb_true_iff in Hw as [Hw Hc].
    cbn [forallb] in Hc. rewrite andb_true_r in Hc.
    rewrite forallb_app. cbn [forallb]. rewrite andb_true_r.
    rewrite app_assoc, int_rstrip_snoc.
    destruct (is_int_space c) eqn:Ec.
    + rewrite andb_true_r. by apply IH.
    + rewrite andb_false_r.
      assert (Hnd : forallb is_digit (((d :: ds) ++ w) ++ [c]) = false).
      { rewrite forallb_app. cbn [forallb].
        by rewrite (space_not_digit c Hc), andb_false_r. }
      destruct (((d :: ds) ++ w) ++ [c]) as [|x t]; [done|].
      cbn [forallb] in Hnd. by rewrite Hnd.
Qed.

Lemma int_space_remove_spaces s :
  forallb is_int_space (remove_spaces s) = forallb is_int_space s.
Proof.
  induction s as [|c s IH]; [done|]. rewrite remove_spaces_cons.
  cbn [forallb]. destruct (N.eqb_spec c SPACE) as [->|]; cbn [negb forallb];
    by rewrite IH.
Qed.

(** The price read when the run is the first priced number of the text:
    the group takes the run and what white space fits in seven
    characters, and [int] must know that white space. *)
Lemma parse_price_run pre d body ws post :
  first_after pre (d :: body ++ ws ++ EURO :: post) ->
  is_digit d = true -> forallb is_grouped body = true -> length body <= 6 ->
  forallb is_space ws = true ->
  parse_price (Some (pre ++ d :: body ++ ws ++ EURO :: post))
  = if forallb is_int_space (take (6 - length body) ws)
    then Some (digits_value (d :: List.filter is_digit body))
    else None.
Proof.
  intros Hfirst Hd Hbody Hlen Hws.
  assert (Hne : exists c t, pre ++ d :: body ++ ws ++ EURO :: post = c :: t).
  { destruct pre; simpl; eauto. }
  destruct Hne as (c & t & Hne). unfold parse_price. rewrite Hne, <- Hne.
  rewrite (replace_nbsp_run pre d body ws post Hd).
  rewrite re_search_first.
  2:{ intros a b Hab Hb.
      destruct (match_here _) as [g|] eqn:E; [exfalso|done].
      unfold replace_nbsp in Hab.
      apply map_eq_app in Hab as (a0 & b0 & -> & Ha0 & Hb0).
      apply (Hfirst a0 b0 eq_refl); [intros ->; by subst b|].
      apply starts_price_replace_nbsp.
      rewrite (replace_nbsp_run b0 d body ws post Hd).
      fold (replace_nbsp b0) in Hb0. rewrite Hb0.
      by apply match_here_starts in E. }
  cbn [re_search].
  rewrite match_here_run;
    [ | done | by apply grouped_class
      | unfold replace_nbsp; by rewrite length_map
      | by apply space_replace_nbsp ].
  assert (length (replace_nbsp body) = length body) as ->.
  { unfold replace_nbsp. by rewrite length_map. }
  set (k := 6 - length body).
  change (d :: replace_nbsp body ++ take k (replace_nbsp ws))
    with ([d] ++ replace_nbsp body ++ take k (replace_nbsp ws)).
  rewrite !remove_spaces_app, remove_spaces_grouped by done.
  assert (remove_spaces [d] = [d]) as ->.
  { pose proof (digit_not_space d Hd).
    unfold remove_spaces. simpl. destruct (N.eqb_spec d SPACE) as [->|]; done. }
  rewrite app_assoc.
  change ([d] ++ List.filter is_digit body) with (d :: List.filter is_digit body).
  assert (Hdig : forallb is_digit (d :: List.filter is_digit body) = true).
  { simpl. by rewrite Hd, digits_filter. }
  rewrite py_int_digits_ws;
    [ | done | by apply remove_spaces_space, space_take, space_replace_nbsp ].
  rewrite int_space_remove_spaces.
  unfold replace_nbsp at 1. rewrite firstn_map. fold (replace_nbsp (take k ws)).
  by rewrite (forallb_replace_nbsp _ _ replace_nbsp_int_space).
Qed.

(** A price is read only from a digit and at most six digits or white
    space before optional white space and the euro sign; it is the value
    of these characters once the spaces are removed, which [int] takes
    only when digits alone remain between the ends. *)
Lemma parse_price_Some text z :
  parse_price (Some text) = Some z ->
  exists pre d body ws post,
    replace_nbsp text = pre ++ d :: body ++ ws ++ EURO :: post /\
    is_digit d = true /\ length body <= 6 /\
    forallb is_class body = true /\ forallb is_space ws = true /\
    forallb is_digit (int_strip (remove_spaces (d :: body))) = true /\
    z = digits_value (int_strip (remove_spaces (d :: body))).
Proof.
  unfold parse_price. destruct text as [|c t]; [done|].
  destruct (re_search _) as [g|] eqn:Eg; [|done].
  apply re_search_suffix in Eg as (pre & rest & Hrep & Hm).
  apply match_here_Some in Hm as (d & body & w & r & -> & -> & Hd & Hl & Hb & Hw).
  unfold py_int. destruct (int_strip _) as [|x t'] eqn:Es; [done|].
  destruct (forallb is_digit (x :: t')) eqn:Ed; [|done].
  intros [= <-]. exists pre, d, body, w, r. rewrite Es. by repeat split.
Qed.

(** Without a euro sign, or without a digit, nothing is read. *)
Lemma re_search_no_euro s : ~ In EURO s -> re_search s = None.
Proof.
  intros Hs. destruct (re_search s) as [g|] eqn:E; [exfalso|done].
  apply re_search_suffix in E as (a & t & -> & Ht).
  apply match_here_Some in Ht as (d & body & w & r & _ & -> & _).
  apply Hs. apply in_or_app. right. right.
  apply in_or_app. right. apply in_or_app. right. by left.
Qed.

Lemma re_search_no_digit s :
  (forall c, In c s -> is_digit c = false) -> re_search s = None.
Proof.
  induction s as [|c s IH]; intros Hs; [done|].
  cbn [re_search]. unfold match_here.
  rewrite (Hs c) by by left. apply IH. intros x Hx. apply Hs. by right.
Qed.

End PriceRun.

(** C7, as the code has it. When the first place of the text where the
    pattern can match is a digit followed by at most six digits, spaces
    or non-breaking spaces, then optional white space and the euro sign,
    [parse_price] returns the digits of that run as an integer, whatever
    follows, provided [int] knows the white space that the group of
    seven characters takes in after the run; when it holds one of
    U+001C to U+001F the price is unknown. The run is the first such
    place, in particular, when no euro sign before it follows a digit
    across white space and no digit stands before it across white space.
    The absent input, the empty string, a text without the euro sign and
    a text without a digit give the unknown price; a price is returned
    only for a text that holds such a group of at most seven characters
    before the euro sign. Nothing is raised: [parse_price] is a total
    function. *)
Theorem parse_price_reads (U : Unicode) (HU : UnicodeSpec U) :
  (forall pre d body ws post,
     first_after pre (d :: body ++ ws ++ EURO :: post) ->
     is_digit d = true -> forallb is_grouped body = true ->
     (length body <= 6)%nat ->
     forallb is_space ws = true ->
     parse_price (Some (pre ++ d :: body ++ ws ++ EURO :: post))
     = if forallb is_int_space (take (6 - length body) ws)
       then Some (digits_value (d :: List.filter is_digit body))
       else None) /\
  (forall pre run post,
     forallb is_class run = true ->
     (forall a b, pre = a ++ EURO :: b -> left_boundary a) ->
     left_boundary pre ->
     first_after pre (run ++ EURO :: post)) /\
  parse_price None = None /\
  parse_price (Some []) = None /\
  (forall text, ~ In EURO text -> parse_price (Some text) = None) /\
  (forall text, (forall c, In c text -> is_digit c = false) ->
     parse_price (Some text) = None) /\
  (forall text z,
     parse_price (Some text) = Some z ->
     exists pre d body ws post,
       replace_nbsp text = pre ++ d :: body ++ ws ++ EURO :: post /\
       is_digit d = true /\ (length body <= 6)%nat /\
       forallb is_class body = true /\ forallb is_space ws = true /\
       forallb is_digit (int_strip (remove_spaces (d :: body))) = true /\
       z = digits_value (int_strip (remove_spaces (d :: body)))).
Proof.
  split; [|split; [|split; [|split; [|split; [|split]]]]]; try done.
  - intros. by apply parse_price_run.
  - intros. by apply first_after_boundary.
  - intros [|c t] Ht; [done|]. unfold parse_price.
    rewrite re_search_no_euro; [done|]. by apply no_euro_replace_nbsp.
  - intros [|c t] Ht; [done|]. unfold parse_price.
    rewrite re_search_no_digit; [done|].
    intros x [y [<- Hy]]%in_map_iff. rewrite replace_nbsp_digit. by apply Ht.
  - intros. by apply parse_price_Some.
Qed.

Lemma parse_price_reads_witness :
  @parse_price small_unicode
    (Some (([EURO] ++ lit " Prix: ") ++ lit "1" ++ [NBSP] ++ lit "250"
           ++ [NBSP; EURO] ++ lit " + 5 " ++ [EURO]))
  = Some 1250%Z.
Proof.
  pose proof (parse_price_reads small_unicode small_unicode_spec)
    as (Hrun & Hfirst & _).
  refine (Hrun ([EURO] ++ lit " Prix: ") 49%N ([NBSP] ++ lit "250") [NBSP]
            (lit " + 5 " ++ [EURO]) _ _ _ _ _).
  - refine (Hfirst ([EURO] ++ lit " Prix: ") (49%N :: [NBSP] ++ lit "250" ++ [NBSP])
              (lit " + 5 " ++ [EURO]) _ _ _).
    + reflexivity.
    + intros [|x a] b Hab; [exact I|]. exfalso.
      injection Hab as _ Hab.
      assert (Hin : In EURO (lit " Prix: ")).
      { rewrite Hab. apply in_or_app. right. by left. }
      vm_compute in Hin. intuition discriminate.
    + reflexivity.
  - reflexivity.
  - reflexivity.
  - vm_compute. lia.
  - reflexivity.
Defined.

(** C7 as stated fails on a run of more than seven characters: of one
    million euros written with spaces the last seven characters are
    read, and of eight digits the last seven. It also fails for digits
    before the euro sign that follow another digit across a tab: the
    match starts at the earlier digit and [int] refuses the tab. *)
Lemma parse_price_long_run :
  @parse_price small_unicode (Some (lit "1 000 000 " ++ [EURO])) = Some 0%Z /\
  @digits_value small_unicode (remove_spaces (lit "1 000 000")) = 1000000%Z /\
  @parse_price small_unicode (Some (lit "12345678" ++ [EURO])) = Some 2345678%Z /\
  @parse_price small_unicode (Some (lit "1" ++ [9%N] ++ lit "000" ++ [EURO])) = None.
Proof. by vm_compute. Qed.

(** These values do not depend on the table: they are the same for every
    database that satisfies [UnicodeSpec]. *)
Lemma long_run_any_table (U : Unicode) (HU : UnicodeSpec U) :
  parse_price (Some (lit "1 000 000 " ++ [EURO])) = Some 0%Z /\
  parse_price (Some (lit "12345678" ++ [EURO])) = Some 2345678%Z /\
  parse_price (Some (lit "1" ++ [9%N] ++ lit "000" ++ [EURO])) = None.
Proof.
  assert (D : forall c, (48 <= c <= 57)%N -> decimal c = Some (Z.of_N c - 48)%Z)
    by apply decimal_ascii.
  assert (DS : decimal 32 = None) by by apply decimal_not_space.
  assert (DT : decimal 9 = None) by by apply decimal_not_space.
  assert (DE : decimal 8364 = None) by apply decimal_not_euro.
  split; [|split].
  - cbv -[decimal].
    rewrite ?DS, ?DE, ?(D 48%N), ?(D 49%N) by lia. cbv -[decimal].
    rewrite ?DS, ?DE, ?(D 48%N), ?(D 49%N) by lia. reflexivity.
  - cbv -[decimal].
    rewrite ?DS, ?DE, ?(D 49%N), ?(D 50%N), ?(D 51%N), ?(D 52%N), ?(D 53%N),
      ?(D 54%N), ?(D 55%N), ?(D 56%N) by lia.
    cbv -[decimal].
    rewrite ?DS, ?DE, ?(D 49%N), ?(D 50%N), ?(D 51%N), ?(D 52%N), ?(D 53%N),
      ?(D 54%N), ?(D 55%N), ?(D 56%N) by lia.
    reflexivity.
  - cbv -[decimal].
    rewrite ?DT, ?DE, ?(D 48%N), ?(D 49%N) by lia. cbv -[decimal].
    rewrite ?DT, ?DE, ?(D 48%N), ?(D 49%N) by lia. reflexivity.
Qed.

Lemma normalize_idempotent_witness :
  @normalize small_unicode
    (@normalize small_unicode ([32; 201; 99; 114; 97; 110; 160; 9; 49; 50; 10]%N))
  = lit "ecran 12".
Proof.
  exact (normalize_idempotent small_unicode small_unicode_spec
           ([32; 201; 99; 114; 97; 110; 160; 9; 49; 50; 10]%N)).
Defined.

(** ** The loop body *)

Section LoopBody.
Context {U : Unicode} {H : Hashlib} {PF : Platform}.

Lemma notify_eq w cfg it st :
  (V1.send_telegram w it (tag_prefix cfg) ;; seen_add (fingerprint (url it))) st
  = (Ok tt, after_notify w cfg it st).
Proof.
  unfold V1.send_telegram, after_notify, seen_add, emit, mbind, M_bind, mret, M_ret.
  destruct (deliver w it); simpl; by rewrite <- ?app_assoc.
Qed.

Lemma send_telegram_same w it tag : V2.send_telegram w it tag = V1.send_telegram w it tag.
Proof. reflexivity. Qed.

(** The loop body of each variant: skip a seen fingerprint, skip a
    rejected listing, otherwise notify and mark. *)
Lemma V1_process_eq w cfg it st :
  V1.process w cfg it st =
  if bool_decide (fingerprint (url it) ∈ seen st) then (Ok tt, st)
  else if V1.accepts cfg it then (Ok tt, after_notify w cfg it st)
  else (Ok tt, st).
Proof.
  rewrite <- notify_eq.
  unfold V1.process, V1.accepts, mbind at 1, M_bind at 1, get_seen.
  destruct (bool_decide _); [done|].
  destruct (V1.in_model_range _ _); [|done].
  destruct (V1.price_ok _ _); [|done].
  destruct (V1.shipping_passes _ _); [|done].
  by destruct (V1.terms_pass _ _).
Qed.

Lemma V2_process_eq w cfg it st :
  V2.process w cfg it st =
  if bool_decide (fingerprint (url it) ∈ seen st) then (Ok tt, st)
  else if V2.accepts cfg it then (Ok tt, after_notify w cfg it st)
  else (Ok tt, st).
Proof.
  rewrite <- notify_eq, <- send_telegram_same.
  unfold V2.process, V2.accepts, mbind at 1, M_bind at 1, get_seen.
  destruct (bool_decide _); [done|].
  destruct (V2.in_model_range _ _); [|done].
  destruct (V2.price_ok _ _); [|done].
  destruct (V2.shipping_passes _ _); [|done].
  by destruct (V2.terms_pass _ _).
Qed.

Lemma Web_process_eq w cfg it st :
  Web.process w cfg it st =
  if bool_decide (fingerprint (url it) ∈ seen st) then (Ok tt, st)
  else if Web.accepts cfg it then (Ok tt, after_notify w cfg it st)
  else (Ok tt, st).
Proof.
  rewrite <- notify_eq, <- send_telegram_same.
  unfold Web.process, Web.accepts, mbind at 1, M_bind at 1, get_seen.
  destruct (bool_decide _); [done|].
  destruct (Web.in_model_range _ _); [|done].
  destruct (Web.price_ok _ _); [|done].
  destruct (Web.terms_pass _ _); [|done].
  by destruct (Web.shipping_passes _ _).
Qed.

End LoopBody.

(** ** De-duplication *)

Section Dedup.
Context {U : Unicode} {H : Hashlib} {PF : Platform}.

Lemma frame_of_eq (process : world -> config -> item -> M unit)
    (accepts : config -> item -> bool) :
  (forall w cfg it st,
     process w cfg it st =
     if bool_decide (fingerprint (url it) ∈ seen st) then (Ok tt, st)
     else if accepts cfg it then (Ok tt, after_notify w cfg it st)
     else (Ok tt, st)) ->
  loop_body_frame process accepts.
Proof.
  intros Heq w cfg it st. split; [|split].
  - rewrite Heq. intros [Hin | Hrej].
    + by rewrite bool_decide_eq_true_2.
    + rewrite Hrej. by destruct (bool_decide _).
  - rewrite Heq. destruct (bool_decide _) eqn:E; [done|].
    apply bool_decide_eq_false in E.
    destruct (accepts cfg it); [by intros _ | done].
  - intros w' cfg' Hnew Hrej Hacc.
    rewrite (Heq w cfg), Hrej. rewrite bool_decide_eq_false_2 by done.
    cbn [snd]. rewrite Heq, Hacc. by rewrite bool_decide_eq_false_2.
Qed.

(** C10. In the three variants, processing a record whose fingerprint is
    already seen, or which fails one of the four predicates, changes
    neither the set nor the trace; the set changes only when the listing
    passed the predicates, was not seen, and the sink was called; and a
    listing rejected under one configuration is notified when a later
    configuration accepts it. *)
Theorem rejected_stays_eligible :
  loop_body_frame V1.process V1.accepts /\
  loop_body_frame V2.process V2.accepts /\
  loop_body_frame Web.process Web.accepts.
Proof.
  split; [|split]; apply frame_of_eq; intros.
  - apply V1_process_eq.
  - apply V2_process_eq.
  - apply Web_process_eq.
Qed.

Lemma notified_fids_app t1 t2 :
  notified_fids (t1 ++ t2) = notified_fids t1 ++ notified_fids t2.
Proof.
  induction t1 as [|e t1 IH]; [done|].
  destruct e; simpl; by rewrite IH.
Qed.

Lemma preserves_ret {A} (I : state -> Prop) (a : A) : preserves I (mret a).
Proof. by intros st. Qed.

Lemma preserves_lift {A} (I : state -> Prop) (r : result A) : preserves I (lift r).
Proof. by intros st. Qed.

Lemma preserves_bind {A B} (I : state -> Prop) (m : M A) (f : A -> M B) :
  preserves I m -> (forall a, preserves I (f a)) -> preserves I (m ≫= f).
Proof.
  intros Hm Hf st Hst. unfold mbind, M_bind.
  specialize (Hm st Hst). destruct (m st) as [[a|e] st']; [|done].
  by apply Hf.
Qed.

Lemma preserves_try {A} (I : state -> Prop) (m : M A) (h : exn -> M A) :
  preserves I m -> (forall e, preserves I (h e)) -> preserves I (try_except m h).
Proof.
  intros Hm Hh st Hst. unfold try_except.
  specialize (Hm st Hst). destruct (m st) as [[a|e] st']; [done|].
  by apply Hh.
Qed.

(** An event that is not a call of the sink keeps the invariant. *)
Lemma preserves_emit e :
  notified_fids [e] = [] -> preserves dedup_inv (emit e).
Proof.
  intros He st [Hnd Hseen]. unfold dedup_inv, emit. simpl.
  rewrite notified_fids_app, He, app_nil_r. done.
Qed.

Lemma preserves_sleep n : preserves dedup_inv (sleep n).
Proof.
  unfold sleep. destruct (sleep_error n); [apply preserves_lift|].
  by apply preserves_emit.
Qed.

Lemma preserves_for_each {A} (I : state -> Prop) (xs : list A) body :
  (forall x, preserves I (body x)) -> preserves I (for_each xs body).
Proof.
  intros Hb. induction xs as [|x xs IH]; simpl.
  - apply preserves_ret.
  - apply preserves_bind; [apply Hb | by intros _].
Qed.

Lemma preserves_fetch_each fetch urls results :
  preserves dedup_inv (fetch_each fetch urls results).
Proof.
  revert results. induction urls as [|u urls IH]; intros results; simpl.
  - apply preserves_ret.
  - apply preserves_bind; [|by intros ?].
    apply preserves_try.
    + apply preserves_bind; [apply preserves_lift|]. intros ?. apply preserves_ret.
    + intros _. apply preserves_bind; [by apply preserves_emit|]. intros _.
      apply preserves_bind; [apply preserves_sleep|]. intros _. apply preserves_ret.
Qed.

(** Notifying a listing whose fingerprint is not seen keeps it. *)
Lemma dedup_inv_after_notify w cfg it st :
  dedup_inv st -> fingerprint (url it) ∉ seen st ->
  dedup_inv (after_notify w cfg it st).
Proof.
  intros [Hnd Hseen] Hnew. unfold dedup_inv, after_notify. simpl.
  rewrite notified_fids_app.
  assert (notified_fids
            (Notify it (tag_prefix cfg) (truthy (photo it)) (deliver w it)
               :: (if deliver w it then [] else [LogWarning]))
          = [fingerprint (url it)]) as -> by by destruct (deliver w it).
  split.
  - apply NoDup_app. repeat split; [done| |apply NoDup_singleton].
    intros fid Hfid ->%list_elem_of_singleton. by apply Hnew, Hseen.
  - intros fid [Hfid | ->%list_elem_of_singleton]%elem_of_app.
    + apply elem_of_union_r. by apply Hseen.
    + apply elem_of_union_l. by apply elem_of_singleton.
Qed.

Lemma preserves_of_eq (process : world -> config -> item -> M unit)
    (accepts : config -> item -> bool) :
  (forall w cfg it st,
     process w cfg it st =
     if bool_decide (fingerprint (url it) ∈ seen st) then (Ok tt, st)
     else if accepts cfg it then (Ok tt, after_notify w cfg it st)
     else (Ok tt, st)) ->
  forall w cfg it, preserves dedup_inv (process w cfg it).
Proof.
  intros Heq w cfg it st Hst. rewrite Heq.
  destruct (bool_decide _) eqn:E; [done|]. apply bool_decide_eq_false in E.
  destruct (accepts cfg it); [|done].
  by apply dedup_inv_after_notify.
Qed.

Lemma preserves_V1_loop cycles : preserves dedup_inv (V1.loop cycles).
Proof.
  induction cycles as [|w cycles IH]; simpl; [apply preserves_ret|].
  apply preserves_bind; [|by intros _].
  apply preserves_try.
  - apply preserves_bind; [apply preserves_lift|]. intros cfg.
    apply preserves_bind; [|intros _; apply preserves_sleep].
    unfold V1.run_once.
    apply preserves_bind.
    { destruct (bool_decide _); [|apply preserves_ret].
      apply preserves_bind; [apply preserves_lift|]. intros ?.
      apply preserves_fetch_each. }
    intros results. apply preserves_bind.
    { destruct (bool_decide _); [|apply preserves_ret].
      apply preserves_bind; [apply preserves_lift|]. intros ?.
      apply preserves_fetch_each. }
    intros results'. apply preserves_for_each.
    apply (preserves_of_eq V1.process V1.accepts). apply V1_process_eq.
  - intros e. apply preserves_bind; [by apply preserves_emit|]. intros _.
    apply preserves_bind; [|intros _; apply preserves_sleep].
    apply preserves_try; [|intros _; apply preserves_ret].
    apply preserves_bind; [by apply preserves_emit|]. intros _.
    destruct (deliver_text w); [apply preserves_ret | apply preserves_lift].
Qed.

Lemma preserves_tg_send_message w k : preserves dedup_inv (V2.tg_send_message w k).
Proof.
  apply preserves_bind; [by apply preserves_emit|]. intros _.
  destruct (deliver_text w); [apply preserves_ret | by apply preserves_emit].
Qed.

Lemma preserves_V2_handler w e : preserves dedup_inv (V2.handler w e).
Proof.
  apply preserves_bind; [by apply preserves_emit|]. intros _.
  apply preserves_bind; [|intros _; apply preserves_sleep].
  apply preserves_try; [|intros _; apply preserves_ret].
  apply preserves_tg_send_message.
Qed.

Lemma preserves_fetch_sources w cfg : preserves dedup_inv (V2.fetch_sources w cfg).
Proof.
  apply preserves_bind.
  - destruct (leboncoin_base_urls cfg);
      [apply preserves_fetch_each | apply preserves_ret].
  - intros results. destruct (vinted_base_urls cfg);
      [apply preserves_fetch_each | apply preserves_ret].
Qed.

Lemma preserves_V2_loop cycles : preserves dedup_inv (V2.loop cycles).
Proof.
  induction cycles as [|w cycles IH]; simpl; [apply preserves_ret|].
  apply preserves_bind; [|by intros _].
  apply preserves_try; [|apply preserves_V2_handler].
  apply preserves_bind; [apply preserves_lift|]. intros cfg.
  apply preserves_bind; [|intros _; apply preserves_sleep].
  apply preserves_bind; [apply preserves_fetch_sources|].
  intros results. apply preserves_for_each.
  apply (preserves_of_eq V2.process V2.accepts). apply V2_process_eq.
Qed.

Lemma preserves_Web_loop cycles : preserves dedup_inv (Web.bot_loop_cycles cycles).
Proof.
  induction cycles as [|w cycles IH]; simpl; [apply preserves_ret|].
  apply preserves_bind; [|by intros _].
  apply preserves_try; [|apply preserves_V2_handler].
  apply preserves_bind; [apply preserves_lift|]. intros cfg.
  apply preserves_bind; [apply preserves_fetch_sources|].
  intros results.
  apply preserves_bind; [|intros _; apply preserves_sleep].
  apply preserves_for_each.
  apply (preserves_of_eq Web.process Web.accepts). apply Web_process_eq.
Qed.

Lemma dedup_inv_initial : dedup_inv initial_state.
Proof. split; [apply NoDup_nil_2 | by intros fid ?%elem_of_nil]. Qed.

Lemma times_notified_in u tr :
  times_notified u tr <> 0%nat -> fingerprint u ∈ notified_fids tr.
Proof.
  induction tr as [|e tr IH]; [done|].
  destruct e; simpl; try exact IH.
  destruct (bool_decide (url it = u)) eqn:E.
  - apply bool_decide_eq_true in E as ->. intros _. apply list_elem_of_here.
  - simpl. intros Hn. apply list_elem_of_further. by apply IH.
Qed.

Lemma times_notified_le u tr :
  NoDup (notified_fids tr) -> (times_notified u tr <= 1)%nat.
Proof.
  induction tr as [|e tr IH]; [simpl; lia|].
  destruct e; simpl; try exact IH.
  intros [Hnew Hnd]%NoDup_cons. specialize (IH Hnd).
  destruct (bool_decide (url it = u)) eqn:E; [|simpl; lia].
  apply bool_decide_eq_true in E. subst u.
  destruct (Nat.eq_dec (times_notified (url it) tr) 0%nat) as [->|Hn];
    [simpl; lia|].
  by apply times_notified_in in Hn.
Qed.

Lemma notified_in_fids it tag ph ok tr :
  In (Notify it tag ph ok) tr -> fingerprint (url it) ∈ notified_fids tr.
Proof.
  induction tr as [|e tr IH]; [done|].
  intros [-> | Hin].
  - simpl. apply list_elem_of_here.
  - specialize (IH Hin). destruct e; simpl; try done.
    by apply list_elem_of_further.
Qed.

Lemma dedup_inv_at_most_once st : dedup_inv st -> at_most_once st.
Proof.
  intros [Hnd Hseen]. split.
  - intros u. by apply times_notified_le.
  - intros it tag ph ok Hin. eapply Hseen, notified_in_fids, Hin.
Qed.

(** C1. Whatever the credentials, the answers of the outside before the
    loop and during any number of cycles (configurations, fetched
    records, fetch and delivery failures), each variant calls the sink
    at most once for each URL, and every listing the sink was called
    for, delivered or not, is in the set at the end. The step that calls
    the sink for an unseen, accepted listing adds its fingerprint before
    the next record is processed, whether the delivery succeeds or not. *)
Theorem notified_at_most_once (env : environ) (boot : world) (cycles : list world) :
  at_most_once (snd (V1.program env boot cycles)) /\
  at_most_once (snd (V2.program env boot cycles)) /\
  at_most_once (snd (Web.program env boot cycles)) /\
  (forall w cfg it st,
     fingerprint (url it) ∉ seen st ->
     (V1.accepts cfg it = true ->
      V1.process w cfg it st = (Ok tt, after_notify w cfg it st)) /\
     (V2.accepts cfg it = true ->
      V2.process w cfg it st = (Ok tt, after_notify w cfg it st)) /\
     (Web.accepts cfg it = true ->
      Web.process w cfg it st = (Ok tt, after_notify w cfg it st)) /\
     fingerprint (url it) ∈ seen (after_notify w cfg it st)).
Proof.
  split; [|split; [|split]]; try apply dedup_inv_at_most_once.
  - unfold V1.program. destruct (check_credentials env);
      [|apply dedup_inv_initial].
    apply (preserves_bind dedup_inv); [apply preserves_lift| |apply dedup_inv_initial].
    intros _. apply preserves_bind; [|intros _; apply preserves_V1_loop].
    apply preserves_bind; [by apply preserves_emit|]. intros _.
    destruct (deliver_text boot); [apply preserves_ret | apply preserves_lift].
  - unfold V2.program. destruct (check_credentials env);
      [|apply dedup_inv_initial].
    apply (preserves_bind dedup_inv);
      [apply preserves_tg_send_message| |apply dedup_inv_initial].
    intros _. apply preserves_V2_loop.
  - unfold Web.program. destruct (check_credentials env);
      [|apply dedup_inv_initial].
    apply (preserves_bind dedup_inv);
      [apply preserves_tg_send_message| |apply dedup_inv_initial].
    intros _. apply preserves_Web_loop.
  - intros w cfg it st Hnew.
    rewrite V1_process_eq, V2_process_eq, Web_process_eq.
    rewrite bool_decide_eq_false_2 by done.
    split; [by intros ->|]. split; [by intros ->|]. split; [by intros ->|].
    unfold after_notify. simpl.
    apply elem_of_union_l. by apply elem_of_singleton.
Qed.

End Dedup.

(** ** The loop and its error path *)

Section Resilience.
Context {U : Unicode} {H : Hashlib} {PF : Platform}.

(** What [sleep] does, by what [time.sleep] answers. *)
Lemma sleep_ok n st :
  sleep_error n = None ->
  sleep n st = (Ok tt, {| seen := seen st; trace := trace st ++ [Sleep n] |}).
Proof. intros Hn. unfold sleep. by rewrite Hn. Qed.

Lemma sleep_raise n e st :
  sleep_error n = Some e -> sleep n st = (Raise e, st).
Proof. intros Hn. unfold sleep. by rewrite Hn. Qed.

(** Every platform takes the short sleeps. *)
Lemma sleep_error_short n :
  (0 <= n <= sleep_floor)%Z -> sleep_error n = None.
Proof.
  intros Hn. unfold sleep_error. pose proof sleep_max_floor as Hf.
  unfold sleep_limit, sleep_floor in *.
  destruct (Z.leb_spec 9223372037 (Z.abs n)); [lia|].
  destruct (Z.ltb_spec n 0); [lia|].
  by destruct (Z.ltb_spec sleep_max n); [lia|].
Qed.

(** [time.sleep] refuses the negative lengths and those beyond 64 bits
    of nanoseconds, on every platform. *)
Lemma sleep_error_refused n :
  (n < 0 \/ sleep_limit <= n)%Z ->
  sleep_error n
  = Some (if (sleep_limit <=? Z.abs n)%Z then OverflowError else ValueError).
Proof.
  intros Hn. unfold sleep_error.
  destruct (Z.leb_spec sleep_limit (Z.abs n)); [done|].
  destruct (Z.ltb_spec n 0); [done|]. unfold sleep_limit in *. lia.
Qed.

Lemma sleep_short n st :
  (0 <= n <= sleep_floor)%Z ->
  sleep n st = (Ok tt, {| seen := seen st; trace := trace st ++ [Sleep n] |}).
Proof. intros Hn. by apply sleep_ok, sleep_error_short. Qed.

Lemma sleep_cooldown st :
  sleep error_cooldown st
  = (Ok tt, {| seen := seen st; trace := trace st ++ [Sleep error_cooldown] |}).
Proof. by apply sleep_short. Qed.

Lemma V1_handler_eq w e st :
  V1.handler w e st
  = (Ok tt, {| seen := seen st; trace := trace st ++ v1_alert_events w e |}).
Proof.
  unfold V1.handler, V1.bot_send_message, v1_alert_events, try_except,
    emit, lift, mbind, M_bind, mret, M_ret.
  destruct (deliver_text w); rewrite sleep_cooldown; simpl;
    by rewrite <- !app_assoc.
Qed.

Lemma V2_handler_eq w e st :
  V2.handler w e st
  = (Ok tt, {| seen := seen st; trace := trace st ++ v2_alert_events w e |}).
Proof.
  unfold V2.handler, V2.tg_send_message, v2_alert_events, try_except,
    emit, lift, mbind, M_bind, mret, M_ret.
  destruct (deliver_text w); rewrite sleep_cooldown; simpl;
    by rewrite <- !app_assoc.
Qed.







End Resilience.



(** ** The two sleeps *)

Section Sleeps.
Context {U : Unicode} {H : Hashlib} {PF : Platform}.

(** C9, as the code has it. The error path of the three loops ends with
    a sleep of 120 seconds whatever the configuration; a cycle that
    succeeds ends with a sleep of [search_interval_seconds], 180 seconds
    when the key is absent, for every interval that [time.sleep] takes.
    An interval that [time.sleep] refuses sends the cycle through the
    error path and its 120 seconds. [time.sleep] takes every length from
    0 to [sleep_floor] and refuses the negative ones and those beyond 64
    bits of nanoseconds; between the two the platform decides. The
    cooldown is thus shorter than the default interval, and longer than
    the interval only when one below 120 seconds is configured. *)
Theorem cooldown_and_interval :
  (forall w e st,
     last (trace (snd (V1.handler w e st))) = Some (Sleep 120) /\
     last (trace (snd (V2.handler w e st))) = Some (Sleep 120)) /\
  (forall w cfg st st',
     load_cfg w = Ok cfg -> sleep_error (search_interval cfg) = None ->
     (V1.run_once w cfg st = (Ok tt, st') ->
      V1.cycle w st = (Ok tt, {| seen := seen st';
                                 trace := trace st' ++ [Sleep (search_interval cfg)] |})) /\
     (V2.run_once w cfg st = (Ok tt, st') ->
      V2.cycle w st = (Ok tt, {| seen := seen st';
                                 trace := trace st' ++ [Sleep (search_interval cfg)] |})) /\
     ((results ← V2.fetch_sources w cfg; for_each results (Web.process w cfg)) st
        = (Ok tt, st') ->
      Web.cycle w st = (Ok tt, {| seen := seen st';
                                  trace := trace st' ++ [Sleep (search_interval cfg)] |}))) /\
  (forall w cfg st st',
     load_cfg w = Ok cfg -> sleep_error (search_interval cfg) <> None ->
     (V1.run_once w cfg st = (Ok tt, st') ->
      last (trace (snd (V1.cycle w st))) = Some (Sleep 120)) /\
     (V2.run_once w cfg st = (Ok tt, st') ->
      last (trace (snd (V2.cycle w st))) = Some (Sleep 120)) /\
     ((results ← V2.fetch_sources w cfg; for_each results (Web.process w cfg)) st
        = (Ok tt, st') ->
      last (trace (snd (Web.cycle w st))) = Some (Sleep 120))) /\
  (forall n, (0 <= n <= sleep_floor)%Z -> sleep_error n = None) /\
  (forall n, (n < 0 \/ sleep_limit <= n)%Z ->
     sleep_error n
     = Some (if (sleep_limit <=? Z.abs n)%Z then OverflowError else ValueError)) /\
  (forall cfg, search_interval_seconds cfg = None ->
     search_interval cfg = 180%Z /\ (error_cooldown < search_interval cfg)%Z) /\
  (forall cfg, (search_interval cfg < error_cooldown)%Z <->
     exists n, search_interval_seconds cfg = Some n /\ (n < 120)%Z).
Proof.
  assert (Hlast : forall w e st,
    last (trace (snd (V1.handler w e st))) = Some (Sleep 120) /\
    last (trace (snd (V2.handler w e st))) = Some (Sleep 120)).
  { intros w e st. rewrite V1_handler_eq, V2_handler_eq. cbn [snd trace].
    unfold v1_alert_events, v2_alert_events.
    rewrite !app_assoc, !last_app. by destruct (deliver_text w). }
  split; [exact Hlast|].
  split; [|split; [|split; [|split; [|split]]]].
  - intros w cfg st st' Hload Hpos. split; [|split]; intros Hrun.
    + unfold V1.cycle, try_except, V1.cycle_body, lift, mbind, M_bind.
      rewrite Hload, Hrun. by rewrite sleep_ok.
    + unfold V2.cycle, try_except, V2.cycle_body, lift, mbind, M_bind.
      rewrite Hload, Hrun. by rewrite sleep_ok.
    + unfold Web.cycle, try_except, Web.cycle_body, lift.
      unfold mbind, M_bind in *. rewrite Hload.
      destruct (V2.fetch_sources w cfg st) as [[results|e] st1]; [|done].
      rewrite Hrun. by rewrite sleep_ok.
  - intros w cfg st st' Hload Hbad.
    destruct (sleep_error (search_interval cfg)) as [e|] eqn:Ee; [|done].
    split; [|split]; intros Hrun.
    + unfold V1.cycle, try_except, V1.cycle_body, lift, mbind, M_bind.
      rewrite Hload, Hrun, (sleep_raise _ e) by done. apply Hlast.
    + unfold V2.cycle, try_except, V2.cycle_body, lift, mbind, M_bind.
      rewrite Hload, Hrun, (sleep_raise _ e) by done. apply Hlast.
    + unfold Web.cycle, try_except, Web.cycle_body, lift.
      unfold mbind, M_bind in *. rewrite Hload.
      destruct (V2.fetch_sources w cfg st) as [[results|e'] st1]; [|done].
      rewrite Hrun, (sleep_raise _ e) by done. apply Hlast.
  - apply sleep_error_short.
  - apply sleep_error_refused.
  - intros cfg Hnone. unfold search_interval, error_cooldown. rewrite Hnone.
    simpl. lia.
  - intros cfg. unfold search_interval, error_cooldown.
    destruct (search_interval_seconds cfg) as [n|]; simpl.
    + split; [by exists n | by intros (m & [= ->] & Hm)].
    + split; [lia | by intros (m & [=] & _)].
Qed.

End Sleeps.

Lemma cooldown_and_interval_witness :
  @V2.cycle small_unicode sample_hashlib sample_platform fair_world initial_state
  = (Ok tt,
     {| seen := seen (snd (@V2.run_once small_unicode sample_hashlib sample_platform fair_world
                             sample_cfg initial_state));
        trace := trace (snd (@V2.run_once small_unicode sample_hashlib sample_platform fair_world
                               sample_cfg initial_state))
                 ++ [Sleep 180] |}).
Proof.
  refine (proj1 (proj2 (proj1 (proj2
    (@cooldown_and_interval small_unicode sample_hashlib sample_platform))
    fair_world sample_cfg initial_state _ _ _)) _).
  - reflexivity.
  - by vm_compute.
  - by vm_compute.
Defined.

(** C9 as stated fails: with the default interval a successful cycle
    sleeps 180 seconds and a failed one 120. *)
Lemma cooldown_shorter_than_default :
  last (trace (snd (@V1.cycle small_unicode sample_hashlib sample_platform fair_world initial_state)))
  = Some (Sleep 180) /\
  last (trace (snd (@V1.cycle small_unicode sample_hashlib sample_platform dark_world initial_state)))
  = Some (Sleep 120) /\
  last (trace (snd (@V2.cycle small_unicode sample_hashlib sample_platform fair_world initial_state)))
  = Some (Sleep 180) /\
  last (trace (snd (@V2.cycle small_unicode sample_hashlib sample_platform dark_world initial_state)))
  = Some (Sleep 120) /\
  last (trace (snd (@Web.cycle small_unicode sample_hashlib sample_platform fair_world initial_state)))
  = Some (Sleep 180) /\
  last (trace (snd (@Web.cycle small_unicode sample_hashlib sample_platform dark_world initial_state)))
  = Some (Sleep 120) /\
  (120 < 180)%Z.
Proof. by vm_compute. Qed.

Lemma rejected_stays_eligible_witness :
  @V1.process small_unicode sample_hashlib fair_world sample_cfg broken_item
    initial_state = (Ok tt, initial_state).
Proof.
  refine (proj1 (proj1 (@rejected_stays_eligible small_unicode sample_hashlib)
    fair_world sample_cfg broken_item initial_state) _).
  right. by vm_compute.
Defined.

Lemma notified_at_most_once_witness :
  (times_notified (url good_item)
     (trace (snd (@V1.program small_unicode sample_hashlib sample_platform good_env fair_world
                    [fair_world; flaky_world; fair_world]))) <= 1)%nat.
Proof.
  exact (proj1 (proj1 (@notified_at_most_once small_unicode sample_hashlib sample_platform good_env
    fair_world [fair_world; flaky_world; fair_world])) (url good_item)).
Defined.

(** ** The scenarios of the specification *)

Example normalize_sample :
  @normalize small_unicode
    ([32; 73; 80; 104; 111; 110; 101; 160; 9; 49; 50; 32; 32; 233; 99; 114; 97; 110; 10]%N)
  = lit "iphone 12 ecran".
Proof. reflexivity. Qed.

Example parse_price_sample :
  @parse_price small_unicode (Some (lit "250 " ++ [EURO])) = Some 250%Z /\
  @parse_price small_unicode (Some (lit "250 EUR")) = None /\
  @parse_price small_unicode (Some ([1633; 1634; EURO]%N)) = Some 12%Z.
Proof. by vm_compute. Qed.

(** A listing that passes is notified once; met again in the next
    cycle, it is skipped. *)
Example notified_once_sample :
  @V1.accepts small_unicode sample_cfg good_item = true /\
  times_notified (url good_item)
    (trace (snd (@V2.program small_unicode sample_hashlib sample_platform good_env fair_world
                   [fair_world; fair_world]))) = 1%nat.
Proof. by vm_compute. Qed.

(** A listing below the price band that contains an excluded term is
    not notified. *)
Example broken_sample :
  V1.price_ok (price broken_item) sample_cfg = false /\
  @V1.terms_pass small_unicode (title broken_item) (desc broken_item) sample_cfg = false /\
  times_notified (url broken_item)
    (trace (snd (@V1.program small_unicode sample_hashlib sample_platform good_env fair_world
                   [fair_world]))) = 0%nat.
Proof. by vm_compute. Qed.

(** * Further properties of the code *)

(** ** [normalize] *)

Section NormalizeMore.
Context {U : Unicode}.

Lemma single_spaced_no_double b l r :
  single_spaced b (l ++ SPACE :: SPACE :: r) = false.
Proof.
  revert b. induction l as [|c l IH]; intros b.
  - simpl. by rewrite andb_false_r.
  - cbn [app single_spaced]. rewrite !IH.
    destruct (is_space c); [apply andb_false_r | done].
Qed.

Lemma single_spaced_space b s c :
  single_spaced b s = true -> In c s -> is_space c = true -> c = SPACE.
Proof.
  revert b. induction s as [|a s IH]; intros b; [done|].
  cbn [single_spaced]. intros Hs [-> | Hin] Hc.
  - rewrite Hc in Hs.
    apply andb_true_iff in Hs as [[_ Hs%N.eqb_eq]%andb_true_iff _]. done.
  - destruct (is_space a).
    + apply andb_true_iff in Hs as [_ Hs]. by apply (IH true).
    + by apply (IH false).
Qed.

(** X1. What [normalize] returns is in canonical form: every character
    is ASCII and is not an upper-case letter, the only white space is
    the space character, the text neither starts nor ends with a space,
    and no two spaces are adjacent. *)
Theorem normalize_canonical_form (s : str) :
  (forall c, In c (normalize s) ->
     (c < 128)%N /\ ~ (65 <= c <= 90)%N /\ (is_space c = true -> c = SPACE)) /\
  (forall c t, normalize s = c :: t -> is_space c = false) /\
  (forall t c, normalize s = t ++ [c] -> is_space c = false) /\
  (forall l r, normalize s <> l ++ SPACE :: SPACE :: r).
Proof.
  destruct (normalize_canonical s) as [Ha Hl Hs He Hsp].
  split; [|split; [|split]].
  - intros c Hc. split; [|split].
    + rewrite forallb_forall in Ha. by apply N.ltb_lt, Ha.
    + assert (Hlc : lower_char c = c).
      { clear -Hl Hc. induction (normalize s) as [|a t IH]; [done|].
        injection Hl as Ha Ht. destruct Hc as [-> | Hc]; [done | by apply IH]. }
      unfold lower_char in Hlc. intros [H1%N.leb_le H2%N.leb_le].
      rewrite H1, H2 in Hlc. simpl in Hlc. lia.
    + intros Hsp'. by apply (single_spaced_space false (normalize s)).
  - intros c t Heq. by rewrite Heq in Hs.
  - intros t c Heq. unfold ends_clean in He. by rewrite Heq, last_snoc in He.
  - intros l r Heq. by rewrite Heq, single_spaced_no_double in Hsp.
Qed.

End NormalizeMore.

Section NormalizeAscii.
Context {U : Unicode} {HU : UnicodeSpec U}.

(** On ASCII text [normalize] is trimming, lowering and squeezing. *)
Lemma normalize_ascii s :
  forallb is_ascii s = true -> normalize s = sub_ws false (lower (strip s)).
Proof.
  intros Ha. destruct s as [|c s]; [done|].
  unfold normalize. by rewrite (nfkd_ascii _ Ha), (encode_ascii_fixed _ Ha).
Qed.

Lemma lstrip_lower s : lstrip (lower s) = lower (lstrip s).
Proof.
  induction s as [|c s IH]; [done|]. cbn [lower map lstrip].
  rewrite lower_char_space. by destruct (is_space c).
Qed.

Lemma rstrip_lower s : rstrip (lower s) = lower (rstrip s).
Proof.
  unfold rstrip. change (rev (lower s)) with (rev (map lower_char s)).
  rewrite <- map_rev. change (map lower_char (rev s)) with (lower (rev s)).
  rewrite lstrip_lower. unfold lower. by rewrite map_rev.
Qed.

Lemma strip_lower s : strip (lower s) = lower (strip s).
Proof. unfold strip. by rewrite lstrip_lower, rstrip_lower. Qed.

Lemma lstrip_spaces w s : forallb is_space w = true -> lstrip (w ++ s) = lstrip s.
Proof.
  induction w as [|c w IH]; [done|]. cbn [forallb app lstrip].
  intros [-> Hw]%andb_true_iff. by apply IH.
Qed.

Lemma rstrip_spaces s w : forallb is_space w = true -> rstrip (s ++ w) = rstrip s.
Proof.
  induction w as [|c w IH] using rev_ind; intros Hw; [by rewrite app_nil_r|].
  rewrite forallb_app in Hw. apply andb_true_iff in Hw as [Hw Hc].
  simpl in Hc. rewrite andb_true_r in Hc.
  by rewrite app_assoc, rstrip_snoc, Hc, IH.
Qed.

Lemma strip_spaces w1 s w2 :
  forallb is_space w1 = true -> forallb is_space w2 = true ->
  strip (w1 ++ s ++ w2) = strip s.
Proof.
  intros H1 H2. unfold strip. rewrite (lstrip_spaces w1 _ H1).
  induction s as [|c s IH].
  - simpl. replace (lstrip w2) with (@nil N); [done|].
    clear -H2. induction w2 as [|c w IH]; [done|]. simpl in *.
    apply andb_true_iff in H2 as [-> H2]. by apply IH.
  - cbn [app lstrip]. destruct (is_space c); [exact IH|].
    change (c :: s ++ w2) with ((c :: s) ++ w2).
    by rewrite (rstrip_spaces (c :: s) w2 H2).
Qed.

Lemma forallb_space_ascii_app w1 s w2 :
  forallb is_ascii w1 = true -> forallb is_ascii s = true ->
  forallb is_ascii w2 = true -> forallb is_ascii (w1 ++ s ++ w2) = true.
Proof. intros H1 H2 H3. by rewrite !forallb_app, H1, H2, H3. Qed.

(** X2. On ASCII text [normalize] ignores the case of letters and the
    white space around the text. *)
Theorem normalize_ignores_case_and_margins (s w1 w2 : str) :
  forallb is_ascii s = true ->
  forallb is_ascii w1 = true -> forallb is_space w1 = true ->
  forallb is_ascii w2 = true -> forallb is_space w2 = true ->
  normalize (lower s) = normalize s /\
  normalize (w1 ++ s ++ w2) = normalize s.
Proof.
  intros Hs Ha1 Hw1 Ha2 Hw2. split.
  - rewrite !normalize_ascii by (done || by apply ascii_lower).
    by rewrite strip_lower, lower_idem.
  - rewrite !normalize_ascii by (done || by apply forallb_space_ascii_app).
    by rewrite strip_spaces.
Qed.

End NormalizeAscii.

Lemma normalize_ignores_case_and_margins_witness :
  @normalize small_unicode (lit "  " ++ lit "iPhone 12 PRO" ++ [9; 10]%N)
  = @normalize small_unicode (lit "iPhone 12 PRO").
Proof.
  exact (proj2 (@normalize_ignores_case_and_margins small_unicode small_unicode_spec
    (lit "iPhone 12 PRO") (lit "  ") [9; 10]%N
    eq_refl eq_refl eq_refl eq_refl eq_refl)).
Defined.

(** ** [parse_price] *)

(** X3. A price that [parse_price] returns is between 0 and 9 999 999:
    the pattern captures at most seven characters. *)
Theorem parse_price_bounded (U : Unicode) (HU : UnicodeSpec U)
    (text : option str) (z : Z) :
  parse_price text = Some z -> (0 <= z <= 9999999)%Z.
Proof. intros Hz%parse_price_range. lia. Qed.

Lemma parse_price_bounded_witness : (0 <= 250 <= 9999999)%Z.
Proof.
  exact (parse_price_bounded small_unicode small_unicode_spec
           (Some (lit "250 " ++ [EURO])) 250%Z eq_refl).
Defined.

Section PriceDigits.
Context {U : Unicode} {HU : UnicodeSpec U}.

Lemma ascii_digit_decimal c :
  is_ascii_digit c = true -> decimal c = Some (Z.of_N c - 48)%Z.
Proof.
  unfold is_ascii_digit. intros [H1%N.leb_le H2%N.leb_le]%andb_true_iff.
  by apply decimal_ascii.
Qed.

Lemma ascii_digits_value s acc :
  forallb is_ascii_digit s = true ->
  fold_left (fun acc c => (10 * acc + default 0 (decimal c))%Z) s acc
  = fold_left (fun acc c => (10 * acc + (Z.of_N c - 48))%Z) s acc.
Proof.
  revert acc. induction s as [|c s IH]; intros acc; [done|].
  cbn [forallb fold_left]. intros [Hc Hs]%andb_true_iff.
  rewrite (ascii_digit_decimal c Hc). cbn [default from_option id]. by apply IH.
Qed.

Lemma ascii_digits_filter s :
  forallb is_ascii_digit s = true ->
  List.filter is_digit s = s /\ forallb is_grouped s = true.
Proof.
  induction s as [|c s IH]; [done|]. cbn [forallb List.filter].
  intros [Hc Hs]%andb_true_iff. destruct (IH Hs) as [Hf Hg].
  assert (is_digit c = true) as Hd.
  { unfold is_digit. by rewrite (ascii_digit_decimal c Hc). }
  rewrite Hd, Hf. split; [done|]. unfold is_grouped at 1. by rewrite Hd, Hg.
Qed.

(** X4. One to seven ASCII digits, then optional white space and the
    euro sign, at the start of the text, are read as the number they
    write in base ten, whatever follows the euro sign, when [int] knows
    the white space that falls within the six characters after the first
    digit. When one of the separators U+001C to U+001F falls there, the
    price is unknown: the group takes it in and [int] refuses it. *)
Theorem parse_price_ascii_digits (d : N) (ds ws post : str) :
  forallb is_ascii_digit (d :: ds) = true ->
  (length ds <= 6)%nat ->
  forallb is_space ws = true ->
  parse_price (Some (d :: ds ++ ws ++ EURO :: post))
  = if forallb is_int_space (take (6 - length ds) ws)
    then Some (decimal_number (d :: ds))
    else None.
Proof.
  intros Hd Hl Hw. pose proof Hd as Hall.
  cbn [forallb] in Hd. apply andb_true_iff in Hd as [Hd Hds].
  destruct (ascii_digits_filter ds Hds) as [Hf Hg].
  rewrite (parse_price_run [] d ds ws post); [| | |done..].
  - rewrite Hf. unfold digits_value, decimal_number.
    by rewrite (ascii_digits_value (d :: ds) 0 Hall).
  - intros a b Hab Hb. symmetry in Hab. by apply app_eq_nil in Hab as [_ ->].
  - unfold is_digit. by rewrite (ascii_digit_decimal d Hd).
Qed.

End PriceDigits.

Lemma parse_price_ascii_digits_witness :
  @parse_price small_unicode (Some (lit "1250" ++ [9%N] ++ EURO :: lit " TTC"))
  = Some 1250%Z /\
  @parse_price small_unicode (Some (lit "1250" ++ [28%N] ++ EURO :: lit " TTC"))
  = None.
Proof.
  split.
  - exact (@parse_price_ascii_digits small_unicode small_unicode_spec
      49%N (lit "250") [9%N] (lit " TTC") eq_refl
      (le_S _ _ (le_S _ _ (le_S _ _ (le_n 3)))) eq_refl).
  - exact (@parse_price_ascii_digits small_unicode small_unicode_spec
      49%N (lit "250") [28%N] (lit " TTC") eq_refl
      (le_S _ _ (le_S _ _ (le_S _ _ (le_n 3)))) eq_refl).
Defined.

Lemma replace_nbsp_idem s : replace_nbsp (replace_nbsp s) = replace_nbsp s.
Proof.
  unfold replace_nbsp. rewrite map_map. apply map_ext. intros c.
  destruct (N.eqb_spec c NBSP) as [->|]; [done|].
  by destruct (N.eqb_spec c NBSP).
Qed.

(** X5. A non-breaking space is read as a space: replacing every
    non-breaking space of the text by a space does not change what
    [parse_price] returns. *)
Theorem parse_price_nbsp (U : Unicode) (text : str) :
  parse_price (Some (replace_nbsp text)) = parse_price (Some text).
Proof.
  destruct text as [|c t]; [done|].
  unfold parse_price. rewrite replace_nbsp_idem.
  by rewrite replace_nbsp_cons.
Qed.

(** ** [price_ok] *)

Lemma float_of_int_ok z : (0 <= z < 2 ^ 53)%Z -> float_of_int z = Ok (inject_Z z).
Proof. apply float_of_int_exact. Qed.

(** X6. With numeric bounds the price band is inclusive on both sides.
    In [mode_a_bot.py] the bounds are the two keys, which must be
    present; in the two other variants an absent key stands for 0 and
    for 10^9. *)
Theorem price_ok_band (z : Z) (cfg : config) (lo hi : Q) :
  (0 <= z < 2 ^ 53)%Z ->
  (price_min cfg = Some (JNumber lo) -> price_max cfg = Some (JNumber hi) ->
   (V1.price_ok (Some z) cfg = true <-> (lo <= inject_Z z /\ inject_Z z <= hi)%Q)) /\
  (default (JNumber 0) (price_min cfg) = JNumber lo ->
   default (JNumber (inject_Z (10 ^ 9))) (price_max cfg) = JNumber hi ->
   (V2.price_ok (Some z) cfg = true <-> (lo <= inject_Z z /\ inject_Z z <= hi)%Q) /\
   (Web.price_ok (Some z) cfg = true <-> (lo <= inject_Z z /\ inject_Z z <= hi)%Q)).
Proof.
  intros Hz.
  assert (Hband : (if Qle_bool lo (inject_Z z) then Qle_bool (inject_Z z) hi else false)
                  = true <-> (lo <= inject_Z z /\ inject_Z z <= hi)%Q).
  { rewrite <- !Qle_bool_iff. destruct (Qle_bool lo (inject_Z z)).
    - split; [done | by intros [_ ?]].
    - split; [done | by intros [? _]]. }
  split.
  - intros Hlo Hhi. unfold V1.price_ok.
    rewrite (float_of_int_ok z Hz), Hlo, Hhi.
    cbn -[Qle_bool inject_Z]. rewrite <- Hband.
    by destruct (Qle_bool lo (inject_Z z)).
  - intros Hlo Hhi. unfold Web.price_ok, V2.price_ok.
    rewrite (float_of_int_ok z Hz), Hlo, Hhi.
    cbn -[Qle_bool inject_Z]. rewrite <- Hband.
    by destruct (Qle_bool lo (inject_Z z)).
Qed.

Lemma price_ok_band_witness :
  V1.price_ok (Some 300%Z) sample_cfg = true <->
  (inject_Z 100 <= inject_Z 300 /\ inject_Z 300 <= inject_Z 300)%Q.
Proof.
  exact (proj1 (price_ok_band 300%Z sample_cfg (inject_Z 100) (inject_Z 300)
    ltac:(lia)) eq_refl eq_refl).
Defined.

(** X7. A bound that is not a number (a JSON string, null, a list or an
    object) does not reject: a non-numeric [price_min] lets every price
    pass, and with a numeric [price_min] a non-numeric [price_max] lets
    pass exactly the prices that are not below [price_min]. A [NaN]
    [price_min] rejects every known price. *)
Theorem price_ok_non_numeric_bound (cfg : config) :
  (price_min cfg = Some JNonNumber ->
   forall p, V1.price_ok p cfg = true /\ V2.price_ok p cfg = true) /\
  (forall z lo, (0 <= z < 2 ^ 53)%Z ->
     price_min cfg = Some (JNumber lo) -> price_max cfg = Some JNonNumber ->
     V1.price_ok (Some z) cfg = Qle_bool lo (inject_Z z) /\
     V2.price_ok (Some z) cfg = Qle_bool lo (inject_Z z)) /\
  (forall z, (0 <= z < 2 ^ 53)%Z -> price_min cfg = Some JNaN ->
     V1.price_ok (Some z) cfg = false /\ V2.price_ok (Some z) cfg = false).
Proof.
  split; [|split].
  - intros Hlo [z|]; [|done]. unfold V1.price_ok, V2.price_ok. rewrite Hlo.
    by destruct (float_of_int z).
  - intros z lo Hz Hlo Hhi. unfold V1.price_ok, V2.price_ok.
    rewrite (float_of_int_ok z Hz), Hlo, Hhi. cbn -[Qle_bool inject_Z].
    by destruct (Qle_bool lo (inject_Z z)).
  - intros z Hz Hlo. unfold V1.price_ok, V2.price_ok.
    by rewrite (float_of_int_ok z Hz), Hlo.
Qed.

Lemma price_ok_non_numeric_bound_witness :
  V1.price_ok (Some 500%Z) text_min_cfg = true /\
  V2.price_ok (Some 500%Z) text_min_cfg = true.
Proof.
  exact (proj1 (price_ok_non_numeric_bound text_min_cfg) eq_refl (Some 500%Z)).
Defined.

(** ** The rule predicates *)

Section RuleSpecs.
Context {U : Unicode}.

Lemma existsb_some_term t l :
  existsb (fun w => contains t (normalize w)) l = true <-> some_term_in l t.
Proof.
  unfold some_term_in. rewrite existsb_exists.
  split; intros (w & Hw & Hc); exists w; split; try done; by apply contains_spec.
Qed.

Lemma existsb_some_term_false t l :
  existsb (fun w => contains t (normalize w)) l = false <-> ~ some_term_in l t.
Proof.
  rewrite <- existsb_some_term.
  destruct (existsb _ l); split; congruence.
Qed.

Lemma in_model_range_iff title models :
  V1.in_model_range title models = true <->
  models = [] \/ some_term_in models (normalize title).
Proof.
  unfold V1.in_model_range. destruct models as [|m ms] eqn:E.
  - split; [by left | done].
  - cbv zeta. rewrite existsb_some_term. split; [by right | by intros [? | ?]].
Qed.

(** X8. [in_model_range] passes when no model is configured, and
    otherwise exactly when the normalised form of some model occurs in
    the normalised title; the three variants agree. *)
Theorem in_model_range_spec (title : str) (models : list str) :
  (V1.in_model_range title models = true <->
   models = [] \/ some_term_in models (normalize title)) /\
  V2.in_model_range title models = V1.in_model_range title models /\
  Web.in_model_range title models = V1.in_model_range title models.
Proof. split; [apply in_model_range_iff | by destruct models]. Qed.

Lemma shipping_passes_iff text cfg :
  V1.shipping_passes text cfg = true <->
  require_shipping cfg = false \/
  ((shipping_positive cfg = [] \/
    some_term_in (shipping_positive cfg) (normalize text)) /\
   ~ some_term_in (shipping_negative cfg) (normalize text)).
Proof.
  unfold V1.shipping_passes. destruct (require_shipping cfg); cbn [negb];
    [|split; [by left | done]].
  rewrite andb_true_iff, negb_true_iff.
  assert (Hneg : match shipping_negative cfg with
                 | [] => false
                 | _ :: _ => existsb (fun w => contains (normalize text) (normalize w))
                               (shipping_negative cfg)
                 end = false <-> ~ some_term_in (shipping_negative cfg) (normalize text)).
  { rewrite <- existsb_some_term_false. by destruct (shipping_negative cfg). }
  assert (Hpos : match shipping_positive cfg with
                 | [] => true
                 | _ :: _ => existsb (fun w => contains (normalize text) (normalize w))
                               (shipping_positive cfg)
                 end = true <-> shipping_positive cfg = [] \/
                                some_term_in (shipping_positive cfg) (normalize text)).
  { rewrite <- existsb_some_term. destruct (shipping_positive cfg); [|split].
    - split; [by left | done].
    - by right.
    - by intros [? | ?]. }
  destruct (shipping_positive cfg) eqn:Ep, (shipping_negative cfg) eqn:En;
    rewrite Hpos, Hneg; split; try tauto;
    intros [? | ?]; (done || tauto).
Qed.


Lemma existsb_groups t (groups : list (list str)) :
  existsb (fun group => existsb (fun term => contains t (normalize term)) group) groups
  = existsb (fun term => contains t (normalize term)) (concat groups).
Proof.
  induction groups as [|g gs IH]; [done|].
  cbn [existsb concat]. by rewrite existsb_app, IH.
Qed.

Lemma terms_pass_iff title desc cfg :
  V1.terms_pass title desc cfg = true <->
  (terms_any cfg = [] \/
   some_term_in (concat (terms_any cfg)) (normalize (title ++ [SPACE] ++ desc))) /\
  ~ some_term_in (terms_exclude cfg) (normalize (title ++ [SPACE] ++ desc)).
Proof.
  unfold V1.terms_pass. set (t := normalize _).
  rewrite andb_true_iff, existsb_groups.
  assert (Hany : match terms_any cfg with
                 | [] => true
                 | _ :: _ => existsb (fun term => contains t (normalize term))
                               (concat (terms_any cfg))
                 end = true <-> terms_any cfg = [] \/
                                some_term_in (concat (terms_any cfg)) t).
  { rewrite <- existsb_some_term. destruct (terms_any cfg); [|split].
    - split; [by left | done].
    - by right.
    - by intros [? | ?]. }
  assert (Hexc : match terms_exclude cfg with
                 | [] => true
                 | _ :: _ => negb (existsb (fun term => contains t (normalize term))
                                     (terms_exclude cfg))
                 end = true <-> ~ some_term_in (terms_exclude cfg) t).
  { rewrite <- existsb_some_term_false. destruct (terms_exclude cfg); [done|].
    by rewrite negb_true_iff. }
  by rewrite Hany, Hexc.
Qed.


(** X11. The grouping of [terms_any] does not matter: with at least one
    group configured, merging all groups into one changes nothing; and
    when every configured group is empty, every listing is rejected. *)
Theorem terms_any_groups_flat (title desc : str) (cfg : config) :
  terms_any cfg <> [] ->
  V1.terms_pass title desc (set_terms_any [concat (terms_any cfg)] cfg)
  = V1.terms_pass title desc cfg /\
  V2.terms_pass title desc (set_terms_any [concat (terms_any cfg)] cfg)
  = V2.terms_pass title desc cfg /\
  (concat (terms_any cfg) = [] ->
   V1.terms_pass title desc cfg = false /\ V2.terms_pass title desc cfg = false).
Proof.
  intros Hne.
  assert (H1 : V1.terms_pass title desc (set_terms_any [concat (terms_any cfg)] cfg)
               = V1.terms_pass title desc cfg).
  { unfold V1.terms_pass. cbn [terms_any terms_exclude set_terms_any].
    rewrite !existsb_groups. cbn [concat]. rewrite app_nil_r.
    by destruct (terms_any cfg). }
  split; [exact H1|]. split; [rewrite !terms_pass_same; exact H1|].
  intros Hemp.
  assert (H2 : V1.terms_pass title desc cfg = false).
  { unfold V1.terms_pass. rewrite existsb_groups, Hemp.
    by destruct (terms_any cfg). }
  split; [exact H2 | by rewrite terms_pass_same].
Qed.

End RuleSpecs.

Lemma terms_any_groups_flat_witness :
  @V1.terms_pass small_unicode (lit "Samsung S21") (lit "64gb")
    (set_terms_any [concat (terms_any shipping_cfg)] shipping_cfg)
  = @V1.terms_pass small_unicode (lit "Samsung S21") (lit "64gb") shipping_cfg.
Proof.
  exact (proj1 (@terms_any_groups_flat small_unicode (lit "Samsung S21") (lit "64gb")
    shipping_cfg ltac:(discriminate))).
Defined.

(** The web variant asks the same four tests in another order. *)
Lemma Web_accepts_V2 `{Unicode} cfg it : Web.accepts cfg it = V2.accepts cfg it.
Proof.
  unfold V2.accepts, Web.accepts, Web.in_model_range,
    Web.price_ok, Web.terms_pass, Web.shipping_passes.
  rewrite <- !andb_assoc. do 2 f_equal. apply andb_comm.
Qed.

Section NormalizedConfig.
Context {U : Unicode} {HU : UnicodeSpec U}.

Lemma existsb_normalized t l :
  existsb (fun w => contains t (normalize w)) (map normalize l)
  = existsb (fun w => contains t (normalize w)) l.
Proof.
  rewrite existsb_map_compose. induction l as [|a l IH]; [done|].
  cbn [existsb]. by rewrite IH, (normalize_fixed _ (normalize_canonical a)).
Qed.

Lemma existsb_groups_normalized t (groups : list (list str)) :
  existsb (fun group => existsb (fun term => contains t (normalize term)) group)
    (map (map normalize) groups)
  = existsb (fun group => existsb (fun term => contains t (normalize term)) group)
      groups.
Proof.
  induction groups as [|g gs IH]; [done|].
  cbn [map existsb]. by rewrite IH, existsb_normalized.
Qed.

Lemma in_model_range_normalized title ms :
  V1.in_model_range title (map normalize ms) = V1.in_model_range title ms.
Proof.
  unfold V1.in_model_range. cbv zeta. rewrite existsb_normalized. by destruct ms.
Qed.

Lemma shipping_passes_normalized text cfg :
  V1.shipping_passes text (normalize_cfg cfg) = V1.shipping_passes text cfg.
Proof.
  unfold V1.shipping_passes.
  cbn [require_shipping shipping_positive shipping_negative normalize_cfg].
  destruct (require_shipping cfg); [|done]. cbn [negb].
  pose proof (existsb_normalized (normalize text) (shipping_positive cfg)) as Hp.
  pose proof (existsb_normalized (normalize text) (shipping_negative cfg)) as Hn.
  destruct (shipping_positive cfg), (shipping_negative cfg);
    cbn [map] in *; by rewrite ?Hp, ?Hn.
Qed.

Lemma terms_pass_normalized title desc cfg :
  V1.terms_pass title desc (normalize_cfg cfg) = V1.terms_pass title desc cfg.
Proof.
  unfold V1.terms_pass. cbn [terms_any terms_exclude normalize_cfg]. cbv zeta.
  rewrite existsb_normalized, existsb_groups_normalized.
  by destruct (terms_any cfg), (terms_exclude cfg).
Qed.

(** X12. Matching does not depend on how the terms of the configuration
    are written: a configuration and the one obtained by normalising
    every model, term and shipping term accept the same listings, in
    the three variants; and a title matches the models exactly when its
    normal form does. *)
Theorem normalized_config_same (cfg : config) (it : item) :
  V1.accepts (normalize_cfg cfg) it = V1.accepts cfg it /\
  V2.accepts (normalize_cfg cfg) it = V2.accepts cfg it /\
  Web.accepts (normalize_cfg cfg) it = Web.accepts cfg it /\
  V1.in_model_range (normalize (title it)) (models cfg)
  = V1.in_model_range (title it) (models cfg).
Proof.
  assert (H1 : V1.accepts (normalize_cfg cfg) it = V1.accepts cfg it).
  { unfold V1.accepts. rewrite shipping_passes_normalized, terms_pass_normalized.
    cbn [models normalize_cfg]. by rewrite in_model_range_normalized. }
  assert (H2 : V2.accepts (normalize_cfg cfg) it = V2.accepts cfg it).
  { unfold V2.accepts.
    rewrite !shipping_passes_same, !terms_pass_same,
      shipping_passes_normalized, terms_pass_normalized.
    cbn [models normalize_cfg].
    change (V2.in_model_range (title it) (map normalize (models cfg)))
      with (V1.in_model_range (title it) (map normalize (models cfg))).
    rewrite in_model_range_normalized. done. }
  split; [exact H1|]. split; [exact H2|]. split.
  - by rewrite !Web_accepts_V2.
  - unfold V1.in_model_range.
    by rewrite (normalize_fixed _ (normalize_canonical (title it))).
Qed.

End NormalizedConfig.

Lemma normalized_config_same_witness :
  @V1.accepts small_unicode (@normalize_cfg small_unicode sample_cfg) good_item
  = @V1.accepts small_unicode sample_cfg good_item.
Proof.
  exact (proj1 (@normalized_config_same small_unicode small_unicode_spec
    sample_cfg good_item)).
Defined.

Section EmptyTerm.
Context {U : Unicode}.

Lemma lstrip_all_space s : forallb is_space s = true -> lstrip s = [].
Proof.
  induction s as [|c s IH]; [done|]. cbn [forallb lstrip].
  intros [-> Hs]%andb_true_iff. by apply IH.
Qed.

(** A term made of white space and of characters that have no ASCII
    form has the empty normal form. *)
Lemma normalize_empty term :
  forallb (fun c => negb (is_ascii c) || is_space c) (nfkd term) = true ->
  normalize term = [].
Proof.
  intros Hall. destruct term as [|c t]; [done|]. unfold normalize.
  assert (Hsp : forallb is_space (encode_ascii_ignore (nfkd (c :: t))) = true).
  { induction (nfkd (c :: t)) as [|a l IH]; [done|].
    cbn [forallb encode_ascii_ignore List.filter] in *.
    apply andb_true_iff in Hall as [Ha Hl].
    destruct (is_ascii a); [|by apply IH].
    cbn [forallb]. simpl in Ha. rewrite Ha. by apply IH. }
  unfold strip. by rewrite (lstrip_all_space _ Hsp).
Qed.

Lemma substring_nil t : substring [] t.
Proof. by exists [], t. Qed.

(** X13. A term whose normal form is empty matches every text: as a
    model it lets every title pass, as an excluded term it rejects every
    listing, and as a negative shipping term it rejects every listing
    once [require_shipping] is set. *)
Theorem empty_term_matches_everything (term : str) :
  normalize term = [] ->
  (forall title models, In term models ->
     V1.in_model_range title models = true /\
     V2.in_model_range title models = true) /\
  (forall title desc cfg, In term (terms_exclude cfg) ->
     V1.terms_pass title desc cfg = false /\
     V2.terms_pass title desc cfg = false) /\
  (forall text cfg, require_shipping cfg = true ->
     In term (shipping_negative cfg) ->
     V1.shipping_passes text cfg = false /\
     V2.shipping_passes text cfg = false).
Proof.
  intros Hnil.
  assert (Hin : forall l t, In term l -> some_term_in l t).
  { intros l t Hl. exists term. split; [done|]. rewrite Hnil. apply substring_nil. }
  split; [|split].
  - intros title ms Hm.
    change (V2.in_model_range title ms) with (V1.in_model_range title ms).
    assert (V1.in_model_range title ms = true); [|done].
    apply in_model_range_iff. right. by apply Hin.
  - intros title desc cfg He. rewrite terms_pass_same.
    assert (V1.terms_pass title desc cfg = false); [|done].
    destruct (V1.terms_pass title desc cfg) eqn:E; [|done].
    apply terms_pass_iff in E as [_ Hno]. exfalso. by apply Hno, Hin.
  - intros text cfg Hreq Hn. rewrite shipping_passes_same.
    assert (V1.shipping_passes text cfg = false); [|done].
    destruct (V1.shipping_passes text cfg) eqn:E; [|done].
    apply shipping_passes_iff in E as [E | [_ Hno]]; [congruence|].
    exfalso. by apply Hno, Hin.
Qed.

End EmptyTerm.

Lemma empty_term_matches_everything_witness :
  @V1.terms_pass small_unicode (lit "iPhone 12") (lit "neuf") shipping_cfg = false.
Proof.
  refine (proj1 (proj1 (proj2 (@empty_term_matches_everything small_unicode
    [20013; 21476]%N _)) (lit "iPhone 12") (lit "neuf") shipping_cfg _)).
  - by apply normalize_empty.
  - by left.
Defined.

(** ** Fetching *)

Lemma fetch_each_eq `{Platform} (fetch : str -> result (list item))
    (urls : list str) (results : list item) (st : state) :
  fetch_each fetch urls results st
  = (Ok (results ++ fetched fetch urls),
     {| seen := seen st; trace := trace st ++ fetch_warnings fetch urls |}).
Proof.
  revert results st. induction urls as [|u urls IH]; intros results st.
  - cbn [fetch_each fetched fetch_warnings]. rewrite !app_nil_r. by destruct st.
  - cbn [fetch_each fetched fetch_warnings].
    unfold try_except, emit, lift, mbind, M_bind, mret, M_ret.
    destruct (fetch u) as [items|e]; cbn -[fetch_each sleep].
    + rewrite IH. by rewrite <- app_assoc.
    + rewrite sleep_short by done.
      rewrite IH. cbn [seen trace]. by rewrite <- !app_assoc.
Qed.

(** X14. Fetching a list of URLs never raises: it returns the records of
    the pages that answered, in the order of the URLs, after the records
    already collected; each page that failed leaves a warning and a
    pause of two seconds in the trace; the set is not touched. *)
Theorem fetch_each_collects `{Platform} (fetch : str -> result (list item))
    (urls : list str) (results : list item) (st : state) :
  fetch_each fetch urls results st
  = (Ok (results ++ fetched fetch urls),
     {| seen := seen st; trace := trace st ++ fetch_warnings fetch urls |}).
Proof. apply fetch_each_eq. Qed.

(** ** Invariants of the loops *)

Section Invariant.
Context {U : Unicode} {H : Hashlib} {PF : Platform}.
Variable I : state -> Prop.
Hypothesis I_emit : forall e st,
  notified_fids [e] = [] ->
  I st -> I {| seen := seen st; trace := trace st ++ [e] |}.
Hypothesis I_notify : forall w cfg it st,
  I st -> fingerprint (url it) ∉ seen st -> I (after_notify w cfg it st).

Lemma inv_emit e : notified_fids [e] = [] -> preserves I (emit e).
Proof. intros He st Hst. by apply I_emit. Qed.

Lemma inv_sleep n : preserves I (sleep n).
Proof.
  unfold sleep. destruct (sleep_error n); [apply preserves_lift | by apply inv_emit].
Qed.

Lemma inv_fetch_each fetch urls results :
  preserves I (fetch_each fetch urls results).
Proof.
  revert results. induction urls as [|u urls IH]; intros results; simpl.
  - apply preserves_ret.
  - apply preserves_bind; [|by intros ?].
    apply preserves_try.
    + apply preserves_bind; [apply preserves_lift|]. intros ?. apply preserves_ret.
    + intros _. apply preserves_bind; [by apply inv_emit|]. intros _.
      apply preserves_bind; [apply inv_sleep|]. intros _. apply preserves_ret.
Qed.

Lemma inv_of_eq (process : world -> config -> item -> M unit)
    (accepts : config -> item -> bool) :
  (forall w cfg it st,
     process w cfg it st =
     if bool_decide (fingerprint (url it) ∈ seen st) then (Ok tt, st)
     else if accepts cfg it then (Ok tt, after_notify w cfg it st)
     else (Ok tt, st)) ->
  forall w cfg it, preserves I (process w cfg it).
Proof.
  intros Heq w cfg it st Hst. rewrite Heq.
  destruct (bool_decide _) eqn:E; [done|]. apply bool_decide_eq_false in E.
  destruct (accepts cfg it); [|done].
  by apply I_notify.
Qed.

Lemma inv_V1_run_once w cfg : preserves I (V1.run_once w cfg).
Proof.
  unfold V1.run_once. apply preserves_bind.
  { destruct (bool_decide _); [|apply preserves_ret].
    apply preserves_bind; [apply preserves_lift|]. intros ?.
    apply inv_fetch_each. }
  intros results. apply preserves_bind.
  { destruct (bool_decide _); [|apply preserves_ret].
    apply preserves_bind; [apply preserves_lift|]. intros ?.
    apply inv_fetch_each. }
  intros results'. apply preserves_for_each.
  apply (inv_of_eq V1.process V1.accepts). apply V1_process_eq.
Qed.

Lemma inv_V1_handler w e : preserves I (V1.handler w e).
Proof.
  apply preserves_bind; [by apply inv_emit|]. intros _.
  apply preserves_bind; [|intros _; apply inv_sleep].
  apply preserves_try; [|intros _; apply preserves_ret].
  apply preserves_bind; [by apply inv_emit|]. intros _.
  destruct (deliver_text w); [apply preserves_ret | apply preserves_lift].
Qed.

Lemma inv_V1_loop cycles : preserves I (V1.loop cycles).
Proof.
  induction cycles as [|w cycles IH]; simpl; [apply preserves_ret|].
  apply preserves_bind; [|by intros _].
  apply preserves_try; [|apply inv_V1_handler].
  apply preserves_bind; [apply preserves_lift|]. intros cfg.
  apply preserves_bind; [apply inv_V1_run_once|]. intros _. apply inv_sleep.
Qed.

Lemma inv_tg_send_message w k : preserves I (V2.tg_send_message w k).
Proof.
  apply preserves_bind; [by apply inv_emit|]. intros _.
  destruct (deliver_text w); [apply preserves_ret | by apply inv_emit].
Qed.

Lemma inv_V2_handler w e : preserves I (V2.handler w e).
Proof.
  apply preserves_bind; [by apply inv_emit|]. intros _.
  apply preserves_bind; [|intros _; apply inv_sleep].
  apply preserves_try; [|intros _; apply preserves_ret].
  apply inv_tg_send_message.
Qed.

Lemma inv_fetch_sources w cfg : preserves I (V2.fetch_sources w cfg).
Proof.
  apply preserves_bind.
  - destruct (leboncoin_base_urls cfg); [apply inv_fetch_each | apply preserves_ret].
  - intros results. destruct (vinted_base_urls cfg);
      [apply inv_fetch_each | apply preserves_ret].
Qed.

Lemma inv_V2_loop cycles : preserves I (V2.loop cycles).
Proof.
  induction cycles as [|w cycles IH]; simpl; [apply preserves_ret|].
  apply preserves_bind; [|by intros _].
  apply preserves_try; [|apply inv_V2_handler].
  apply preserves_bind; [apply preserves_lift|]. intros cfg.
  apply preserves_bind; [|intros _; apply inv_sleep].
  apply preserves_bind; [apply inv_fetch_sources|].
  intros results. apply preserves_for_each.
  apply (inv_of_eq V2.process V2.accepts). apply V2_process_eq.
Qed.

Lemma inv_Web_loop cycles : preserves I (Web.bot_loop_cycles cycles).
Proof.
  induction cycles as [|w cycles IH]; simpl; [apply preserves_ret|].
  apply preserves_bind; [|by intros _].
  apply preserves_try; [|apply inv_V2_handler].
  apply preserves_bind; [apply preserves_lift|]. intros cfg.
  apply preserves_bind; [apply inv_fetch_sources|].
  intros results.
  apply preserves_bind; [|intros _; apply inv_sleep].
  apply preserves_for_each.
  apply (inv_of_eq Web.process Web.accepts). apply Web_process_eq.
Qed.

Lemma inv_programs env boot cycles :
  I initial_state ->
  I (snd (V1.program env boot cycles)) /\
  I (snd (V2.program env boot cycles)) /\
  I (snd (Web.program env boot cycles)).
Proof.
  intros H0. split; [|split].
  - unfold V1.program. destruct (check_credentials env); [|done].
    apply (preserves_bind I); [apply preserves_lift| |done].
    intros _. apply preserves_bind; [|intros _; apply inv_V1_loop].
    apply preserves_bind; [by apply inv_emit|]. intros _.
    destruct (deliver_text boot); [apply preserves_ret | apply preserves_lift].
  - unfold V2.program. destruct (check_credentials env); [|done].
    apply (preserves_bind I); [apply inv_tg_send_message| |done].
    intros _. apply inv_V2_loop.
  - unfold Web.program. destruct (check_credentials env); [|done].
    apply (preserves_bind I); [apply inv_tg_send_message| |done].
    intros _. apply inv_Web_loop.
Qed.

End Invariant.

Section SeenSet.
Context {U : Unicode} {H : Hashlib} {PF : Platform}.

Lemma notified_fids_after_notify w cfg it st :
  notified_fids (trace (after_notify w cfg it st))
  = notified_fids (trace st) ++ [fingerprint (url it)].
Proof.
  unfold after_notify. cbn [trace]. rewrite notified_fids_app.
  by destruct (deliver w it).
Qed.

(** X15. At the end of any run of the three programs the set holds
    exactly the fingerprints of the listings the sink was called for:
    nothing else is ever added, and nothing is removed. *)
Theorem seen_is_what_was_notified (env : environ) (boot : world)
    (cycles : list world) :
  seen_exact (snd (V1.program env boot cycles)) /\
  seen_exact (snd (V2.program env boot cycles)) /\
  seen_exact (snd (Web.program env boot cycles)).
Proof.
  apply (inv_programs seen_exact).
  - intros e st He Hst fid. cbn [seen trace].
    rewrite notified_fids_app, He, app_nil_r. apply Hst.
  - intros w cfg it st Hst Hnew fid.
    rewrite notified_fids_after_notify. unfold after_notify. cbn [seen].
    rewrite elem_of_union, elem_of_singleton, elem_of_app, list_elem_of_singleton.
    rewrite (Hst fid). tauto.
  - intros fid. cbn. rewrite elem_of_empty. split; [done | by intros ?%elem_of_nil].
Qed.

(** X16. The set only grows: whatever the state a loop starts from and
    whatever happens during the cycles (failures included), every
    fingerprint present at the start is present at the end. *)
Theorem seen_only_grows (cycles : list world) (st : state) :
  seen st ⊆ seen (snd (V1.loop cycles st)) /\
  seen st ⊆ seen (snd (V2.loop cycles st)) /\
  seen st ⊆ seen (snd (Web.bot_loop_cycles cycles st)).
Proof.
  assert (He : forall e st', notified_fids [e] = [] ->
    seen st ⊆ seen st' ->
    seen st ⊆ seen {| seen := seen st'; trace := trace st' ++ [e] |}) by done.
  assert (Hn : forall w cfg it st',
    seen st ⊆ seen st' -> fingerprint (url it) ∉ seen st' ->
    seen st ⊆ seen (after_notify w cfg it st')).
  { intros w cfg it st' Hst _. unfold after_notify. cbn [seen].
    by apply union_subseteq_r'. }
  split; [|split].
  - by apply (inv_V1_loop (fun st' => seen st ⊆ seen st') He Hn cycles st).
  - by apply (inv_V2_loop (fun st' => seen st ⊆ seen st') He Hn cycles st).
  - by apply (inv_Web_loop (fun st' => seen st ⊆ seen st') He Hn cycles st).
Qed.

End SeenSet.

(** ** The three loops compared *)

Section Orchestration.
Context {U : Unicode} {H : Hashlib} {PF : Platform}.

Lemma for_each_ext {A} (f g : A -> M unit) (xs : list A) :
  (forall x st, f x st = g x st) ->
  forall st, for_each xs f st = for_each xs g st.
Proof.
  intros Hfg. induction xs as [|x xs IH]; intros st; [done|].
  cbn [for_each]. unfold mbind, M_bind. rewrite Hfg.
  destruct (g x st) as [[[]|e] st']; [apply IH | done].
Qed.

Lemma for_each_ok {A} (f : A -> M unit) (xs : list A) :
  (forall x st, fst (f x st) = Ok tt) ->
  forall st, fst (for_each xs f st) = Ok tt.
Proof.
  intros Hf. induction xs as [|x xs IH]; intros st; [done|].
  cbn [for_each]. unfold mbind, M_bind.
  specialize (Hf x st). destruct (f x st) as [[[]|e] st']; [apply IH | done].
Qed.

Lemma process_ok (process : world -> config -> item -> M unit)
    (accepts : config -> item -> bool) :
  (forall w cfg it st,
     process w cfg it st =
     if bool_decide (fingerprint (url it) ∈ seen st) then (Ok tt, st)
     else if accepts cfg it then (Ok tt, after_notify w cfg it st)
     else (Ok tt, st)) ->
  forall w cfg it st, fst (process w cfg it st) = Ok tt.
Proof.
  intros Heq w cfg it st. rewrite Heq.
  destruct (bool_decide _); [done|]. by destruct (accepts cfg it).
Qed.

Lemma Web_process_V2 w cfg it st :
  Web.process w cfg it st = V2.process w cfg it st.
Proof. by rewrite Web_process_eq, V2_process_eq, Web_accepts_V2. Qed.

Lemma fetch_sources_eq w cfg st :
  V2.fetch_sources w cfg st
  = (Ok (match leboncoin_base_urls cfg with
         | Some urls => fetched (fetch_leboncoin w) urls
         | None => []
         end
         ++ match vinted_base_urls cfg with
            | Some urls => fetched (fetch_vinted w) urls
            | None => []
            end),
     {| seen := seen st;
        trace := trace st
                 ++ match leboncoin_base_urls cfg with
                    | Some urls => fetch_warnings (fetch_leboncoin w) urls
                    | None => []
                    end
                 ++ match vinted_base_urls cfg with
                    | Some urls => fetch_warnings (fetch_vinted w) urls
                    | None => []
                    end |}).
Proof.
  unfold V2.fetch_sources, mbind, M_bind, mret, M_ret.
  destruct (leboncoin_base_urls cfg) as [lu|], (vinted_base_urls cfg) as [vu|];
    rewrite ?fetch_each_eq; cbn [seen trace app];
    rewrite ?fetch_each_eq; cbn [seen trace app];
    rewrite ?app_nil_r, ?app_assoc; try done.
  by destruct st.
Qed.

Lemma Web_cycle_body_V2 w st : Web.cycle_body w st = V2.cycle_body w st.
Proof.
  unfold Web.cycle_body, V2.cycle_body, V2.run_once, lift, mbind, M_bind.
  destruct (load_cfg w) as [cfg|e]; [|done].
  rewrite fetch_sources_eq.
  rewrite (for_each_ext _ _ _ (Web_process_V2 w cfg)).
  by destruct (for_each _ _ _) as [[[]|e] st'].
Qed.







Lemma V2_run_once_ok w cfg st : fst (V2.run_once w cfg st) = Ok tt.
Proof.
  unfold V2.run_once, mbind, M_bind. rewrite fetch_sources_eq.
  apply for_each_ok. intros it st'. apply (process_ok _ _ V2_process_eq).
Qed.

Lemma notified_fids_fetch_warnings fetch urls :
  notified_fids (fetch_warnings fetch urls) = [].
Proof.
  induction urls as [|u urls IH]; [done|].
  cbn [fetch_warnings]. by destruct (fetch u).
Qed.

Lemma state_eta (st : state) :
  {| seen := seen st; trace := trace st ++ [] |} = st.
Proof. rewrite app_nil_r. by destruct st. Qed.

(** The first variant's [run_once] when a listed marketplace has no
    [base_urls]: nothing after the failing lookup runs. *)
Lemma V1_run_once_KeyError w cfg st :
  (lit "leboncoin" ∈ platforms cfg /\ leboncoin_base_urls cfg = None) \/
  (lit "vinted" ∈ platforms cfg /\ vinted_base_urls cfg = None) ->
  exists evs, notified_fids evs = [] /\
    V1.run_once w cfg st
    = (Raise KeyError, {| seen := seen st; trace := trace st ++ evs |}).
Proof.
  intros Hbad.
  unfold V1.run_once, lift, mbind, M_bind, mret, M_ret.
  destruct (bool_decide (lit "leboncoin" ∈ platforms cfg)) eqn:El;
    [apply bool_decide_eq_true in El | apply bool_decide_eq_false in El];
    (destruct (bool_decide (lit "vinted" ∈ platforms cfg)) eqn:Ev;
      [apply bool_decide_eq_true in Ev | apply bool_decide_eq_false in Ev]);
    destruct (leboncoin_base_urls cfg) as [lu|] eqn:Elu,
             (vinted_base_urls cfg) as [vu|] eqn:Evu;
    try (exfalso; destruct Hbad as [[? ?]|[? ?]]; done);
    cbn -[for_each fetch_each]; rewrite ?fetch_each_eq;
    cbn -[for_each fetch_each];
    first [ by exists []; rewrite state_eta
          | by exists (fetch_warnings (fetch_leboncoin w) lu);
               rewrite notified_fids_fetch_warnings ].
Qed.






(** X20. In the first variant a marketplace listed in [platforms]
    without [base_urls] costs the whole cycle: the lookup raises
    [KeyError] before any listing is examined, so the sink is not
    called and the set is unchanged, even for the listings the other
    marketplace returned; the cycle ends through the handler with the
    alert and the cooldown. *)
Theorem listed_platform_without_urls (w : world) (cfg : config) (st : state) :
  load_cfg w = Ok cfg ->
  (lit "leboncoin" ∈ platforms cfg /\ leboncoin_base_urls cfg = None) \/
  (lit "vinted" ∈ platforms cfg /\ vinted_base_urls cfg = None) ->
  exists evs, notified_fids evs = [] /\
    V1.cycle w st
    = (Ok tt, {| seen := seen st;
                 trace := trace st ++ evs ++ v1_alert_events w KeyError |}).
Proof.
  intros Hcfg Hbad.
  destruct (V1_run_once_KeyError w cfg st Hbad) as (evs & Hevs & Heq).
  exists evs. split; [done|].
  unfold V1.cycle, try_except, V1.cycle_body, lift, mbind, M_bind.
  rewrite Hcfg, Heq, V1_handler_eq. cbn [seen trace]. by rewrite <- app_assoc.
Qed.

(** X21. An interval that [time.sleep] refuses does not stop the loop
    and does not lose the notifications of the cycle: [run_once] is
    carried out, then [time.sleep] raises, and the cycle ends through
    the handler, with the error logged, the alert and the cooldown of
    120 seconds in place of the configured pause. Every negative
    interval is refused, with [ValueError], and with [OverflowError]
    when it does not fit in 64 bits of nanoseconds; so is every
    interval too large for these 64 bits, with [OverflowError]. *)
Theorem refused_interval (w : world) (cfg : config) (st : state) (e : exn) :
  load_cfg w = Ok cfg ->
  sleep_error (search_interval cfg) = Some e ->
  V2.cycle w st
  = (Ok tt, {| seen := seen (snd (V2.run_once w cfg st));
               trace := trace (snd (V2.run_once w cfg st))
                        ++ v2_alert_events w e |}) /\
  Web.cycle w st = V2.cycle w st /\
  (fst (V1.run_once w cfg st) = Ok tt ->
   V1.cycle w st
   = (Ok tt, {| seen := seen (snd (V1.run_once w cfg st));
                trace := trace (snd (V1.run_once w cfg st))
                         ++ v1_alert_events w e |})) /\
  ((search_interval cfg < 0 \/ sleep_limit <= search_interval cfg)%Z ->
   e = if (sleep_limit <=? Z.abs (search_interval cfg))%Z
       then OverflowError else ValueError).
Proof.
  intros Hcfg He.
  split; [|split; [|split]].
  - unfold V2.cycle, try_except, V2.cycle_body, lift, mbind, M_bind.
    rewrite Hcfg. pose proof (V2_run_once_ok w cfg st) as Hok.
    destruct (V2.run_once w cfg st) as [[[]|e'] st']; [|done].
    by rewrite (sleep_raise _ e), V2_handler_eq.
  - unfold Web.cycle, V2.cycle, try_except. by rewrite Web_cycle_body_V2.
  - intros Hok.
    unfold V1.cycle, try_except, V1.cycle_body, lift, mbind, M_bind.
    rewrite Hcfg.
    destruct (V1.run_once w cfg st) as [[[]|e'] st']; [|done].
    by rewrite (sleep_raise _ e), V1_handler_eq.
  - intros Hbad. rewrite (sleep_error_refused _ Hbad) in He. by injection He.
Qed.

(** X22. The key [platforms] rules the first variant only. With neither
    marketplace listed there, its [run_once] fetches nothing and leaves
    the state as it was, whatever [base_urls] are configured; the second
    variant never reads the key. *)
Theorem unlisted_platforms (w : world) (cfg : config) (st : state) :
  lit "leboncoin" ∉ platforms cfg ->
  lit "vinted" ∉ platforms cfg ->
  V1.run_once w cfg st = (Ok tt, st) /\
  (forall ps, V2.run_once w (set_platforms ps cfg) st = V2.run_once w cfg st).
Proof.
  intros Hl Hv. split; [|done].
  unfold V1.run_once, mbind, M_bind, mret, M_ret.
  by rewrite !bool_decide_eq_false_2.
Qed.

End Orchestration.


Lemma listed_platform_without_urls_witness :
  exists evs, @notified_fids sample_hashlib evs = [] /\
    @V1.cycle small_unicode sample_hashlib sample_platform
       {| load_cfg := Ok listed_only_cfg;
          fetch_leboncoin := fun _ => Ok [good_item];
          fetch_vinted := fun _ => Ok [];
          deliver := fun _ => true;
          deliver_text := true |} initial_state
    = (Ok tt, {| seen := ∅;
                 trace := [] ++ evs ++ [LogError KeyError; SendText Alert true;
                                        Sleep error_cooldown] |}).
Proof.
  refine (listed_platform_without_urls _ listed_only_cfg initial_state _ _).
  - reflexivity.
  - left. split; [|reflexivity].
    apply (bool_decide_unpack _). vm_compute. exact I.
Defined.

Lemma refused_interval_witness :
  @V2.cycle small_unicode sample_hashlib sample_platform shipping_world initial_state
  = (Ok tt, {| seen := ∅;
               trace := [LogError ValueError; SendText Alert true;
                         Sleep error_cooldown] |}).
Proof.
  refine (proj1 (@refused_interval small_unicode sample_hashlib sample_platform
                   shipping_world shipping_cfg initial_state ValueError _ _)).
  - reflexivity.
  - reflexivity.
Defined.

Lemma unlisted_platforms_witness :
  @V1.run_once small_unicode sample_hashlib sample_platform fair_world
     (set_platforms [] sample_cfg) initial_state
  = (Ok tt, initial_state).
Proof.
  refine (proj1 (unlisted_platforms fair_world (set_platforms [] sample_cfg)
                   initial_state _ _));
    cbn [set_platforms platforms]; apply not_elem_of_nil.
Defined.

(** ** The records the fetchers build *)

Section Fetchers.
Context {U : Unicode} {HU : UnicodeSpec U}.

Lemma record_of_spec root name d a it :
  Fetch.record_of root name d a = Some it ->
  exists c h, a_href a = Some (c :: h) /\
    url it = (if starts_with (lit "/") (c :: h) then root ++ c :: h else c :: h) /\
    title it = a_text a /\
    price it = parse_price (a_price_text a) /\
    platform it = name /\
    desc it = d /\
    truthy (photo it) = match a_img a with
                        | Some (src, data_src) => truthy src || truthy data_src
                        | None => false
                        end.
Proof.
  unfold Fetch.record_of, py_or.
  destruct (a_href a) as [[|c h]|]; cbn [truthy default]; [done| |done].
  intros [= <-]. exists c, h. cbn [url title price platform desc photo].
  repeat (split; [done|]).
  destruct (a_img a) as [[src ds]|]; [|done].
  destruct (truthy src) eqn:E; [by rewrite E | done].
Qed.

Lemma record_of_well_formed root name d a it :
  Fetch.record_of root name d a = Some it -> well_formed root name it.
Proof.
  intros (c & h & _ & Hurl & _ & Hp & Hn & _)%record_of_spec.
  unfold well_formed. rewrite Hurl, Hp, Hn. repeat split.
  - destruct (starts_with _ _); [|done]. by destruct root.
  - destruct (starts_with (lit "/") (c :: h)) eqn:E; [left | by right].
    apply starts_with_spec in E as [b Hb]. rewrite Hb.
    apply starts_with_spec. exists b. by rewrite <- app_assoc.
  - destruct (parse_price _) as [z|] eqn:E; [|done].
    apply parse_price_range in E. lia.
Qed.

Lemma record_of_built root name d a it :
  Fetch.record_of root name d a = Some it ->
  built_from root name a it /\ desc it = d.
Proof.
  intros (c & h & Hh & Hurl & Ht & Hp & Hn & Hd & Hph)%record_of_spec.
  split; [|done]. by exists (c :: h).
Qed.

Lemma record_of_has_href root name d a :
  has_href a = false -> Fetch.record_of root name d a = None.
Proof.
  unfold has_href, Fetch.record_of, py_or.
  by destruct (a_href a) as [[|c h]|].
Qed.

Lemma record_of_is_Some root name d a :
  has_href a = true -> is_Some (Fetch.record_of root name d a).
Proof.
  unfold has_href, Fetch.record_of, py_or.
  by destruct (a_href a) as [[|c h]|].
Qed.

(** The records of a page follow its anchors. *)
Lemma omap_built (d : anchor -> str) root name anchors :
  Forall2 (fun a it => built_from root name a it /\ desc it = d a)
    (List.filter has_href anchors)
    (omap (fun a => Fetch.record_of root name (d a) a) anchors) /\
  Forall (well_formed root name)
    (omap (fun a => Fetch.record_of root name (d a) a) anchors).
Proof.
  induction anchors as [|a anchors [IH1 IH2]]; [by split|].
  cbn [omap list_omap List.filter].
  destruct (has_href a) eqn:Ea.
  - destruct (record_of_is_Some root name (d a) a Ea) as [it Hit].
    rewrite Hit. split; constructor; try done.
    + by apply record_of_built.
    + by eapply record_of_well_formed.
  - by rewrite (record_of_has_href root name (d a) a Ea).
Qed.

(** X23. The records the two fetchers build. A page that cannot be
    fetched gives the exception and no record. Otherwise the records
    follow the page: there is exactly one record for each selected
    anchor that has a link (an anchor without [href] is skipped), in
    the order of the page, and the record has the anchor's text as
    title, the price read from the anchor's price text, the platform's
    name, and as URL the [href] kept as it is or, for an [href]
    starting with a slash, the site followed by it. A Leboncoin record
    has the text of the next paragraph as description, a Vinted record
    an empty one. Hence every record has a URL that is not empty and a
    price that is absent or within seven digits. *)
Theorem fetched_records_well_formed (page : result (list anchor)) :
  match page with
  | Raise e =>
      Fetch.fetch_leboncoin page = Raise e /\ Fetch.fetch_vinted page = Raise e
  | Ok anchors =>
      exists lbc vinted,
        Fetch.fetch_leboncoin page = Ok lbc /\
        Fetch.fetch_vinted page = Ok vinted /\
        Forall2 (fun a it => built_from LEBONCOIN_ROOT (lit "leboncoin") a it /\
                             desc it = default [] (a_next_p a))
          (List.filter has_href anchors) lbc /\
        Forall2 (fun a it => built_from VINTED_ROOT (lit "vinted") a it /\
                             desc it = [])
          (List.filter has_href anchors) vinted /\
        Forall (well_formed LEBONCOIN_ROOT (lit "leboncoin")) lbc /\
        Forall (well_formed VINTED_ROOT (lit "vinted")) vinted
  end.
Proof.
  destruct page as [anchors|e]; [|done].
  eexists _, _. split; [done|]. split; [done|].
  destruct (omap_built (fun a => default [] (a_next_p a))
              LEBONCOIN_ROOT (lit "leboncoin") anchors) as [Hl1 Hl2].
  destruct (omap_built (fun _ => []) VINTED_ROOT (lit "vinted") anchors)
    as [Hv1 Hv2].
  done.
Qed.

End Fetchers.

Lemma fetched_records_well_formed_witness :
  exists lbc vinted,
    @Fetch.fetch_leboncoin small_unicode (Ok [sample_anchor]) = Ok lbc /\
    @Fetch.fetch_vinted small_unicode (Ok [sample_anchor]) = Ok vinted /\
    Forall2 (fun a it =>
               @built_from small_unicode LEBONCOIN_ROOT (lit "leboncoin") a it /\
               desc it = default [] (a_next_p a))
      [sample_anchor] lbc /\
    Forall2 (fun a it =>
               @built_from small_unicode VINTED_ROOT (lit "vinted") a it /\
               desc it = [])
      [sample_anchor] vinted /\
    Forall (well_formed LEBONCOIN_ROOT (lit "leboncoin")) lbc /\
    Forall (well_formed VINTED_ROOT (lit "vinted")) vinted.
Proof.
  exact (@fetched_records_well_formed small_unicode small_unicode_spec
           (Ok [sample_anchor])).
Defined.

(** ** Starting the programs *)

Section Startup.
Context {U : Unicode} {H : Hashlib} {PF : Platform}.



End Startup.
